(** * Sungrow Modbus integration: register planning, decoding and the poll cycle

    A shallow embedding of [sungrow_modbus/model_registry.py] and
    [sungrow_modbus/sensor.py].  Python integers are [Z], Python strings are
    [string] (code points 0..255, which is all [chr (x & 0xFF)] can produce),
    Python floats are binary64 [float]s, the [data] dictionary is a [gmap] and
    the Modbus client is a step function on an abstract device state.  Raised
    exceptions are explicit outcomes. *)

From Stdlib Require Import ZArith Floats Lia Ascii String DecimalString DecimalZ.
From stdpp Require Import gmap strings list sorting.

Open Scope string_scope.
Open Scope Z_scope.

(** ** Python values, exceptions and subscripting *)

Module Py.

(** Values that end up in the coordinator's dictionary or in a sensor state. *)
Inductive pyval :=
| PNone
| PInt (z : Z)
| PStr (s : string)
| PFloat (f : float).

(** A number literal of the source: [1] is an int, [1.0] and [0.1] are floats. *)
Inductive number :=
| NInt (z : Z)
| NFloat (f : float).

Inductive exn := TypeError | IndexError | OverflowError.

Inductive outcome (A : Type) :=
| Ok (a : A)
| Raise (e : exn).
Arguments Ok {A} a.
Arguments Raise {A} e.

Definition is_none (v : pyval) : bool :=
  match v with PNone => true | _ => false end.

(** [l[i]] on a Python list: negative indices count from the end, anything
    else out of range raises IndexError (here [None]). *)
Definition getitem (l : list Z) (i : Z) : option Z :=
  if 0 <=? i then l !! Z.to_nat i
  else if - Z.of_nat (length l) <=? i then l !! Z.to_nat (Z.of_nat (length l) + i)
  else None.

(** [range(n)] *)
Definition range (n : Z) : list Z := Z.of_nat <$> seq 0 (Z.to_nat n).

(** [chr(b)] for [0 <= b <= 255]. *)
Definition chr (b : Z) : ascii := ascii_of_N (Z.to_N b).

Definition ord (c : ascii) : Z := Z.of_N (N_of_ascii c).

(** [str.isspace] on the code points below 256. *)
Definition isspace (c : ascii) : bool :=
  let n := ord c in
  ((9 <=? n) && (n <=? 13)) || ((28 <=? n) && (n <=? 32)) || (n =? 133) || (n =? 160).

Fixpoint lstrip (s : list ascii) : list ascii :=
  match s with
  | [] => []
  | c :: s' => if isspace c then lstrip s' else s
  end.

Definition rstrip (s : list ascii) : list ascii := rev (lstrip (rev s)).

(** [s.strip()] *)
Definition strip (s : list ascii) : list ascii := rstrip (lstrip s).

(** [s.replace('\x00', '')] *)
Definition remove_nul (s : list ascii) : list ascii :=
  filter (fun c => c <> zero) s.

(** [float(z)]: correctly rounded, OverflowError beyond the largest float. *)
Definition float_of_int (z : Z) : outcome float :=
  let f := SF2Prim (binary_normalize prec emax z 0 false) in
  if is_infinity f then Raise OverflowError else Ok f.

Fixpoint str_repeat (s : string) (n : nat) : string :=
  match n with
  | O => ""
  | S n' => String.append s (str_repeat s n')
  end.

(** [value * scale] *)
Definition mul (value : pyval) (scale : number) : outcome pyval :=
  match value, scale with
  | PInt z, NInt k => Ok (PInt (z * k))
  | PInt z, NFloat f =>
      match float_of_int z with
      | Ok g => Ok (PFloat (g * f)%float)
      | Raise e => Raise e
      end
  | PFloat g, NFloat f => Ok (PFloat (g * f)%float)
  | PFloat g, NInt k =>
      match float_of_int k with
      | Ok f => Ok (PFloat (g * f)%float)
      | Raise e => Raise e
      end
  | PStr s, NInt k => Ok (PStr (str_repeat s (Z.to_nat k)))
  | PStr _, NFloat _ => Raise TypeError
  | PNone, _ => Raise TypeError
  end.

(** [scale != 1.0] *)
Definition ne_one (scale : number) : bool :=
  match scale with
  | NInt k => negb (k =? 1)
  | NFloat f => negb (f =? 1)%float
  end.

(** [str(z)], as an f-string prints an int. *)
Definition str_of_int (z : Z) : string := NilEmpty.string_of_int (Z.to_int z).

(** The truth value of [v]: [not v] is its negation. *)
Definition truthy (v : pyval) : bool :=
  match v with
  | PNone => false
  | PInt z => negb (z =? 0)
  | PStr s => negb (String.eqb s "")
  | PFloat f => negb (f =? 0)%float
  end.

(** The integer a float equals, if it equals one. *)
Definition integral (f : float) : option Z :=
  match Prim2SF f with
  | S754_zero _ => Some 0
  | S754_finite sign m e =>
      let magnitude :=
        if 0 <=? e then Some (Z.pos m * 2 ^ e)
        else if Z.pos m mod 2 ^ (- e) =? 0 then Some (Z.pos m / 2 ^ (- e))
        else None in
      if sign then Z.opp <$> magnitude else magnitude
  | _ => None
  end.

(** The int key of a dictionary that [v] hits: an int hits itself, a float
    hits the int it equals, nothing else hits an int key. *)
Definition int_key (v : pyval) : option Z :=
  match v with
  | PInt z => Some z
  | PFloat f => integral f
  | _ => None
  end.

End Py.
Import Py.

(** ** model_registry.py *)

Module model_registry.

Record Register := {
  address : Z;
  name : string;
  data_type : string;
  count : Z;                      (* default 1 *)
  scale : number;                 (* default 1.0 *)
  unit_ : option string;          (* [unit], default None *)
  device_class : option string;   (* default None *)
  state_class : option string;    (* default None *)
  register_type : string          (* default "input" *)
}.

(** [Register(address, name, data_type)] with every default. *)
Definition Register_ (address : Z) (name data_type : string) : Register :=
  {| address := address; name := name; data_type := data_type; count := 1;
     scale := NFloat 1; unit_ := None; device_class := None;
     state_class := None; register_type := "input" |}.

Definition with_count (n : Z) (r : Register) : Register :=
  {| address := address r; name := name r; data_type := data_type r; count := n;
     scale := scale r; unit_ := unit_ r; device_class := device_class r;
     state_class := state_class r; register_type := register_type r |}.

(** [scale=..., unit=..., device_class=...] keywords. *)
Definition measuring (s : number) (u d : string) (r : Register) : Register :=
  {| address := address r; name := name r; data_type := data_type r; count := count r;
     scale := s; unit_ := Some u; device_class := Some d;
     state_class := state_class r; register_type := register_type r |}.

Definition with_register_type (t : string) (r : Register) : Register :=
  {| address := address r; name := name r; data_type := data_type r; count := count r;
     scale := scale r; unit_ := unit_ r; device_class := device_class r;
     state_class := state_class r; register_type := t |}.

(** The float literal 0.1 (nearest binary64). *)
Definition f0_1 : float := 0x1.999999999999ap-4%float.

Definition _create_base_registers : list Register :=
  [ with_count 10 (Register_ 4989 "Serial Number" "string");
    Register_ 4999 "Device Type Code" "uint16";
    measuring (NFloat f0_1) (String "176"%char "C") "temperature"
      (Register_ 5007 "Inverter Temperature" "int16") ].

Definition _create_sh10rt : list Register :=
  _create_base_registers ++
  [ measuring (NFloat f0_1) "V" "voltage" (Register_ 5010 "MPPT1 Voltage" "uint16");
    measuring (NFloat f0_1) "A" "current" (Register_ 5011 "MPPT1 Current" "uint16");
    measuring (NFloat f0_1) "V" "voltage" (Register_ 5012 "MPPT2 Voltage" "uint16");
    measuring (NFloat f0_1) "A" "current" (Register_ 5013 "MPPT2 Current" "uint16") ].

Definition _create_sh25t : list Register :=
  _create_base_registers ++
  [ measuring (NFloat f0_1) "V" "voltage" (Register_ 5010 "MPPT1 Voltage" "uint16");
    measuring (NFloat f0_1) "A" "current" (Register_ 5011 "MPPT1 Current" "uint16");
    measuring (NFloat f0_1) "V" "voltage" (Register_ 5012 "MPPT2 Voltage" "uint16");
    measuring (NFloat f0_1) "A" "current" (Register_ 5013 "MPPT2 Current" "uint16");
    measuring (NFloat f0_1) "V" "voltage" (Register_ 5014 "MPPT3 Voltage" "uint16");
    measuring (NFloat f0_1) "A" "current" (Register_ 5015 "MPPT3 Current" "uint16");
    measuring (NInt 1) "W" "power" (Register_ 5016 "Total DC Power" "uint32") ].

(** [self.models]: identity code to creation function; each call of a
    creation function builds a fresh list, so the in-place sort of the
    coordinator never touches the registry. *)
Definition models : gmap Z (list Register) :=
  <[0x0E03 := _create_sh10rt]> (<[0x0E26 := _create_sh25t]> ∅).

Definition get_model (model_code : Z) : option (list Register) :=
  models !! model_code.

End model_registry.
Import model_registry.

(** ** sensor.py *)

Module sensor.

(** *** The Modbus client and the effects of a poll *)

Inductive read_fn := ReadInput | ReadHolding.

(** One call of [client.read_input_registers] or [client.read_holding_registers]. *)
Record request := {
  req_fn : read_fn;
  req_address : Z;
  req_count : Z;
  req_slave : Z
}.

(** A pymodbus response: [None] when [isError()], else its [registers]. *)
Definition response := option (list Z).

(** The client, as a step function on the state [D] of connection and device. *)
Record ModbusTcpClient (D : Type) := {
  read_input_registers : Z -> Z -> Z -> D -> response * D;
  read_holding_registers : Z -> Z -> Z -> D -> response * D
}.
Arguments read_input_registers {D} _ _ _ _ _.
Arguments read_holding_registers {D} _ _ _ _ _.

(** Keys of [data]: the string "device_type_code" and register addresses. *)
Definition key : Type := string + Z.

(** What a poll acts on: the device, the requests sent so far, and the one
    dictionary [data] that [_async_update_data] creates and
    [_read_register_group] mutates. *)
Record world (D : Type) := {
  device : D;
  wire : list request;
  data : gmap key pyval
}.
Arguments device {D} _.
Arguments wire {D} _.
Arguments data {D} _.

Definition M (D A : Type) : Type := world D -> outcome A * world D.

Definition ret {D A} (a : A) : M D A := fun w => (Ok a, w).

Definition raise {D A} (e : exn) : M D A := fun w => (Raise e, w).

Definition bind {D A B} (m : M D A) (k : A -> M D B) : M D B :=
  fun w =>
    match m w with
    | (Ok a, w') => k a w'
    | (Raise e, w') => (Raise e, w')
    end.

Notation "'let!' x ':=' m 'in' k" := (bind m (fun x => k))
  (at level 10, x pattern, m at level 100, k at level 200).

(** [data[k] = v] *)
Definition setitem {D} (k : key) (v : pyval) : M D unit :=
  fun w => (Ok tt, {| device := device w; wire := wire w; data := <[k := v]> (data w) |}).

Definition get_data {D} : M D (gmap key pyval) := fun w => (Ok (data w), w).

(** [data = {}] *)
Definition new_data {D} : M D unit :=
  fun w => (Ok tt, {| device := device w; wire := wire w; data := ∅ |}).

Definition call_client {D} (client : ModbusTcpClient D) (fn : read_fn)
    (address count slave : Z) : M D response :=
  fun w =>
    let '(result, d) :=
      match fn with
      | ReadInput => read_input_registers client address count slave (device w)
      | ReadHolding => read_holding_registers client address count slave (device w)
      end in
    (Ok result,
     {| device := d;
        wire := wire w ++ [{| req_fn := fn; req_address := address;
                              req_count := count; req_slave := slave |}];
        data := data w |}).

(** [await e] where [e] calls a plain [def]: the call runs to completion and
    returns [None], which is not awaitable, so the [await] raises TypeError. *)
Definition await_plain_call {D} (call : M D unit) : M D unit :=
  let! _ := call in raise TypeError.

(** *** Decoding one register of a response *)

(** The loop [for i in range(reg.count)] that fills [chars]. *)
Fixpoint string_chars (result_registers : list Z) (offset : Z) (indices : list Z)
    (chars : list ascii) : option (list ascii) :=
  match indices with
  | [] => Some chars
  | i :: indices' =>
      match getitem result_registers (offset + i) with
      | None => None
      | Some word =>
          string_chars result_registers offset indices'
            (chars ++ [chr (Z.land (Z.shiftr word 8) 0xFF); chr (Z.land word 0xFF)])
      end
  end.

(** The body of [for reg in registers]: the decoded [value] and the advanced
    [offset], or [None] where a subscript raises IndexError. *)
Definition decode_register (result_registers : list Z) (offset : Z) (reg : Register)
    : option (pyval * Z) :=
  if (data_type reg =? "string")%string then
    match string_chars result_registers offset (range (count reg)) [] with
    | None => None
    | Some chars =>
        Some (PStr (string_of_list_ascii (strip (remove_nul chars))), offset + count reg)
    end
  else if (data_type reg =? "uint16")%string then
    match getitem result_registers offset with
    | None => None
    | Some value => Some (PInt value, offset + 1)
    end
  else if (data_type reg =? "int16")%string then
    match getitem result_registers offset with
    | None => None
    | Some value =>
        Some (PInt (if value >? 0x7FFF then value - 0x10000 else value), offset + 1)
    end
  else if (data_type reg =? "uint32")%string then
    match getitem result_registers offset, getitem result_registers (offset + 1) with
    | Some hi, Some lo => Some (PInt (Z.lor (Z.shiftl hi 16) lo), offset + 2)
    | _, _ => None
    end
  else if (data_type reg =? "int32")%string then
    match getitem result_registers offset, getitem result_registers (offset + 1) with
    | Some hi, Some lo =>
        let value := Z.lor (Z.shiftl hi 16) lo in
        Some (PInt (if value >? 0x7FFFFFFF then value - 0x100000000 else value), offset + 2)
    | _, _ => None
    end
  else Some (PNone, offset + count reg).

(** The subscripts of [result.registers] that the body above evaluates. *)
Definition register_reads (offset : Z) (reg : Register) : list Z :=
  if (data_type reg =? "string")%string then (fun i => offset + i) <$> range (count reg)
  else if (data_type reg =? "uint16")%string then [offset]
  else if (data_type reg =? "int16")%string then [offset]
  else if (data_type reg =? "uint32")%string then [offset; offset + 1]
  else if (data_type reg =? "int32")%string then [offset; offset + 1]
  else [].

(** How far the body above advances [offset]. *)
Definition advance (reg : Register) : Z :=
  if (data_type reg =? "string")%string then count reg
  else if (data_type reg =? "uint16")%string then 1
  else if (data_type reg =? "int16")%string then 1
  else if (data_type reg =? "uint32")%string then 2
  else if (data_type reg =? "int32")%string then 2
  else count reg.

(** All subscripts evaluated while a group is decoded from [offset] on. *)
Fixpoint group_reads (offset : Z) (registers : list Register) : list Z :=
  match registers with
  | [] => []
  | reg :: rest => register_reads offset reg ++ group_reads (offset + advance reg) rest
  end.

(** [for reg in registers: ...; data[reg.address] = value] *)
Fixpoint process_results {D} (result_registers : list Z) (offset : Z)
    (registers : list Register) : M D unit :=
  match registers with
  | [] => ret tt
  | reg :: rest =>
      match decode_register result_registers offset reg with
      | None => raise IndexError
      | Some (value, offset') =>
          let! _ := setitem (inr (address reg)) value in
          process_results result_registers offset' rest
      end
  end.

(** [sum(reg.count for reg in registers)] *)
Definition total_count (registers : list Register) : Z :=
  foldl (fun acc reg => acc + count reg) 0 registers.

Definition _read_register_group {D} (client : ModbusTcpClient D) (slave : Z)
    (registers : list Register) : M D unit :=
  match registers with
  | [] => raise IndexError
  | first :: _ =>
      let start_address := address first in
      let count := total_count registers in
      let reg_type := register_type first in
      let! result :=
        (if (reg_type =? "input")%string
         then call_client client ReadInput start_address count slave
         else call_client client ReadHolding start_address count slave) in
      match result with
      | None => ret tt
      | Some result_registers => process_results result_registers 0 registers
      end
  end.

(** *** Sorting and grouping *)

Fixpoint insert_by_address (reg : Register) (sorted : list Register) : list Register :=
  match sorted with
  | [] => [reg]
  | x :: sorted' =>
      if address reg <=? address x then reg :: sorted
      else x :: insert_by_address reg sorted'
  end.

(** [registers.sort(key=lambda r: r.address)]: Python's sort is stable, and a
    stable sort is determined by its input; this is the stable insertion sort. *)
Definition sort_by_address (registers : list Register) : list Register :=
  foldr insert_by_address [] registers.

(** The loop [for reg in registers] with its trailing [if current_group],
    over any action [flush] taken on a finished group. *)
Fixpoint group_loop {D} (flush : list Register -> M D unit)
    (registers current_group : list Register) : M D unit :=
  match registers with
  | [] =>
      match current_group with
      | [] => ret tt
      | _ :: _ => flush current_group
      end
  | reg :: rest =>
      match last current_group with
      | None => group_loop flush rest (current_group ++ [reg])
      | Some last_reg =>
          if address reg =? address last_reg + count last_reg
          then group_loop flush rest (current_group ++ [reg])
          else
            let! _ := flush current_group in
            group_loop flush rest [reg]
      end
  end.

(** The groups the loop hands to [flush], in order, when no [flush] raises. *)
Fixpoint contiguous_groups (registers current_group : list Register)
    : list (list Register) :=
  match registers with
  | [] =>
      match current_group with
      | [] => []
      | _ :: _ => [current_group]
      end
  | reg :: rest =>
      match last current_group with
      | None => contiguous_groups rest (current_group ++ [reg])
      | Some last_reg =>
          if address reg =? address last_reg + count last_reg
          then contiguous_groups rest (current_group ++ [reg])
          else current_group :: contiguous_groups rest [reg]
      end
  end.

(** The read plan of a register list: sort, then group. *)
Definition plan (registers : list Register) : list (list Register) :=
  contiguous_groups (sort_by_address registers) [].

(** [flush] one group after the other, stopping at the first exception. *)
Fixpoint for_each {D} (flush : list Register -> M D unit)
    (groups : list (list Register)) : M D unit :=
  match groups with
  | [] => ret tt
  | g :: groups' => let! _ := flush g in for_each flush groups'
  end.

(** The statement [await self._read_register_group(current_group, data)] of
    lines 106 and 111: the action the loop takes on a finished group. *)
Definition await_read_register_group {D} (client : ModbusTcpClient D) (slave : Z)
    (group : list Register) : M D unit :=
  await_plain_call (_read_register_group client slave group).

(** *** The coordinator *)

Definition _async_update_data {D} (client : ModbusTcpClient D) (slave : Z)
    : M D (gmap key pyval) :=
  let! _ := new_data in
  let! device_type_result := call_client client ReadHolding 4999 1 slave in
  match device_type_result with
  | None => ret ∅
  | Some device_type_registers =>
      match getitem device_type_registers 0 with
      | None => raise IndexError
      | Some model_code =>
          let! _ := setitem (inl "device_type_code") (PInt model_code) in
          match get_model model_code with
          | None => ret ∅
          | Some [] => ret ∅
          | Some registers =>
              let! _ :=
                group_loop (await_read_register_group client slave)
                  (sort_by_address registers) [] in
              get_data
          end
      end
  end.

(** The coordinator as it would run if [_read_register_group] could be
    awaited: the same body with the group read as the flush action. *)
Definition update_with_awaitable_reads {D} (client : ModbusTcpClient D) (slave : Z)
    (registers : list Register) : M D (gmap key pyval) :=
  let! _ := group_loop (_read_register_group client slave) (sort_by_address registers) [] in
  get_data.

(** [SungrowModbusSensor.state] over [coordinator.data]. *)
Definition state (coordinator_data : gmap key pyval) (register : Register)
    : outcome pyval :=
  let value := default PNone (coordinator_data !! inr (address register)) in
  if negb (is_none value) && ne_one (scale register)
  then mul value (scale register)
  else Ok value.

(** A poll started on a device in state [d]: nothing sent yet, [data = {}]. *)
Definition fresh {D} (d : D) : world D := {| device := d; wire := []; data := ∅ |}.

(** *** The sensor entities *)

(** What [SungrowModbusSensor.__init__] stores. *)
Record SungrowModbusSensor := {
  register : Register;
  _name : string;
  _unique_id : string;
  _device_name : string
}.

(** [SungrowModbusSensor(coordinator, register, device_name, slave)] *)
Definition new_sensor (reg : Register) (device_name : string) (slave : Z)
    : SungrowModbusSensor :=
  {| register := reg;
     _name := device_name ++ " " ++ name reg;
     _unique_id := "sungrow_" ++ str_of_int slave ++ "_" ++ str_of_int (address reg);
     _device_name := device_name |}.

(** How [async_setup_entry] ends: [return False], or the call of
    [async_add_entities]. *)
Inductive setup_result :=
| ReturnedFalse
| Added (entities : list SungrowModbusSensor).

(** [async_setup_entry] from [# Get device model] on, as a function of
    [coordinator.data] after the first refresh, of [entry.data["name"]] and
    of [entry.data["slave"]].  The f-string of the second error message
    calls [hex(model_code)], which raises TypeError unless the code is an
    int. *)
Definition async_setup_entry (coordinator_data : gmap key pyval) (device_name : string)
    (slave : Z) : outcome setup_result :=
  let model_code := default PNone (coordinator_data !! inl "device_type_code") in
  if negb (truthy model_code) then Ok ReturnedFalse
  else
    match (match int_key model_code with Some z => get_model z | None => None end) with
    | Some (reg :: registers) =>
        Ok (Added (map (fun r => new_sensor r device_name slave) (reg :: registers)))
    | _ =>
        match model_code with
        | PInt _ => Ok ReturnedFalse
        | _ => Raise TypeError
        end
    end.

End sensor.
Import sensor.

(** ** Notions of the specification *)

Module spec.

(** The width invariant of the data model: [count >= 1], 32-bit types take
    two words, 16-bit types take one. *)
Definition width_ok (r : Register) : bool :=
  (1 <=? count r)
  && (if ((data_type r =? "uint32") || (data_type r =? "int32"))%string
      then count r =? 2 else true)
  && (if ((data_type r =? "uint16") || (data_type r =? "int16"))%string
      then count r =? 1 else true).

(** Reference decoders, in the words of the specification. *)
Definition int16_of_word (raw : Z) : Z :=
  if decide (raw > 0x7FFF) then raw - 0x10000 else raw.

Definition uint32_of_words (high low : Z) : Z := Z.lor (Z.shiftl high 16) low.

Definition int32_of_words (high low : Z) : Z :=
  let value := uint32_of_words high low in
  if decide (value > 0x7FFFFFFF) then value - 0x100000000 else value.

(** High byte, then low byte of a word, each as its character. *)
Definition word_chars (word : Z) : list ascii :=
  [chr (Z.shiftr word 8); chr (Z.land word 0xFF)].

Definition string_of_words (words : list Z) : string :=
  string_of_list_ascii (strip (remove_nul (words ≫= word_chars))).

(** A 16-bit word of the wire protocol. *)
Definition is_word (w : Z) : Prop := 0 <= w < 0x10000.

(** Orders on registers by address. *)
Definition le_address (r1 r2 : Register) : Prop := address r1 <= address r2.

Definition lt_address (r1 r2 : Register) : Prop := address r1 < address r2.

(** One past the last word a register occupies. *)
Definition reg_end (r : Register) : Z := address r + count r.

(** [chained prev rest]: every register of [rest] starts where its
    predecessor ends and occupies at least one word. *)
Fixpoint chained (prev : Register) (rest : list Register) : bool :=
  match rest with
  | [] => true
  | r :: rest' => (address r =? reg_end prev) && (1 <=? count r) && chained r rest'
  end.

(** A contiguous run: non-empty, gap-free, of registers of positive width. *)
Definition is_run (run : list Register) : bool :=
  match run with
  | [] => false
  | r :: rest => (1 <=? count r) && chained r rest
  end.

Definition run_start (run : list Register) : Z :=
  match head run with Some r => address r | None => 0 end.

Definition run_end (run : list Register) : Z :=
  match last run with Some r => reg_end r | None => 0 end.

(** Every member of a block starts where its predecessor ends. *)
Fixpoint gap_free_from (prev : Register) (rest : list Register) : bool :=
  match rest with
  | [] => true
  | r :: rest' => (address r =? reg_end prev) && gap_free_from r rest'
  end.

Definition gap_free (block : list Register) : bool :=
  match block with
  | [] => true
  | r :: rest => gap_free_from r rest
  end.

(** No block continues the block before it. *)
Fixpoint maximal_blocks (blocks : list (list Register)) : bool :=
  match blocks with
  | [] => true
  | block1 :: blocks' =>
      match blocks' with
      | [] => true
      | block2 :: _ =>
          negb (run_start block2 =? run_end block1) && maximal_blocks blocks'
      end
  end.

(** Two runs are disjoint and not adjacent: a gap of at least one word
    lies between them. *)
Definition apart (run1 run2 : list Register) : bool :=
  (run_end run1 <? run_start run2) || (run_end run2 <? run_start run1).

Fixpoint pairwise_apart (runs : list (list Register)) : bool :=
  match runs with
  | [] => true
  | run :: runs' => forallb (apart run) runs' && pairwise_apart runs'
  end.

(** Runs listed in ascending order with a gap after each. *)
Fixpoint ascending_runs (runs : list (list Register)) : bool :=
  match runs with
  | [] => true
  | run1 :: runs' =>
      match runs' with
      | [] => true
      | run2 :: _ => (run_end run1 <? run_start run2) && ascending_runs runs'
      end
  end.

(** Insertion of a run by its start address, to list runs in ascending order. *)
Fixpoint insert_run (run : list Register) (runs : list (list Register))
    : list (list Register) :=
  match runs with
  | [] => [run]
  | x :: runs' =>
      if run_start run <=? run_start x then run :: runs else x :: insert_run run runs'
  end.

Definition sort_runs (runs : list (list Register)) : list (list Register) :=
  foldr insert_run [] runs.


(** Two registers claim a common word of one register space. *)
Definition overlap (r1 r2 : Register) : bool :=
  (register_type r1 =? register_type r2)%string
  && (address r1 <? reg_end r2) && (address r2 <? reg_end r1).

Fixpoint has_overlap (registers : list Register) : bool :=
  match registers with
  | [] => false
  | r :: rest => existsb (overlap r) rest || has_overlap rest
  end.

(** Words requested by a whole plan: the sum of the blocks' totals. *)
Definition plan_words (blocks : list (list Register)) : Z :=
  foldr (fun block acc => total_count block + acc) 0 blocks.

(** The 16-bit word that holds [value] in two's complement. *)
Definition word_of_int16 (value : Z) : Z := value mod 0x10000.

(** The two words, high word first, that hold [value] in two's complement. *)
Definition words_of_int32 (value : Z) : list Z :=
  [ (value mod 0x100000000) / 0x10000; value mod 0x10000 ].

(** Characters packed two per word, high byte first; a last odd character
    takes the high byte of its word. *)
Fixpoint pack_chars (text : list ascii) : list Z :=
  match text with
  | [] => []
  | [c] => [ord c * 256]
  | c1 :: c2 :: text' => (ord c1 * 256 + ord c2) :: pack_chars text'
  end.

(** A text as a device stores it in [n] words: packed, then NUL-padded. *)
Definition words_of_text (n : nat) (text : list ascii) : list Z :=
  pack_chars text ++ replicate (n - length (pack_chars text)) 0.

(** The integers [z, z + 1, ..., z + n - 1]. *)
Fixpoint zrange (n : nat) (z : Z) : list Z :=
  match n with
  | O => []
  | S n' => z :: zrange n' (z + 1)
  end.

(** [value * 0.1] is a float: the conversion of [value] does not overflow. *)
Definition tenth_defined (value : Z) : bool :=
  match mul (PInt value) (NFloat f0_1) with
  | Ok (PFloat _) => true
  | _ => false
  end.

(** The five data types the decoder knows. *)
Definition known_data_type (t : string) : bool :=
  ((t =? "string") || (t =? "uint16") || (t =? "int16")
   || (t =? "uint32") || (t =? "int32"))%string.

(** The request that [_read_register_group] sends for a group that starts
    with [first]. *)
Definition group_request (slave : Z) (first : Register) (registers : list Register)
    : request :=
  {| req_fn := if (register_type first =? "input")%string then ReadInput else ReadHolding;
     req_address := address first;
     req_count := total_count registers;
     req_slave := slave |}.




(** A register with its register space replaced by [relabel]'s choice. *)
Definition relabel_space (relabel : Register -> string) (r : Register) : Register :=
  with_register_type (relabel r) r.


(** The identity read that opens every poll. *)
Definition identity_request (slave : Z) : request :=
  {| req_fn := ReadHolding; req_address := 4999; req_count := 1; req_slave := slave |}.

End spec.
Import spec.

(** ** Concrete registers and devices *)

Module scenarios.



(** The planning scenario of the specification, out of order: registers at
    100 (one word), 101 (two words) and 200 (one word). *)
Definition scenario_registers : list Register :=
  [ Register_ 200 "C" "uint16";
    Register_ 100 "A" "uint16";
    with_count 2 (Register_ 101 "B" "uint32") ].

Definition scenario_runs : list (list Register) :=
  [ [ Register_ 200 "C" "uint16" ];
    [ Register_ 100 "A" "uint16"; with_count 2 (Register_ 101 "B" "uint32") ] ].

(** The temperature register of every model: an int16 with scale 0.1. *)
Definition inverter_temperature : Register :=
  measuring (NFloat f0_1) (String "176"%char "C") "temperature"
    (Register_ 5007 "Inverter Temperature" "int16").

(** A two-word string register. *)
Definition two_word_string : Register :=
  with_count 2 (Register_ 0 "Text" "string").

(** A device that answers every read with [count] words of value [word],
    except input reads starting at [bad], which fail; the identity code is
    [code]. *)
Definition scripted_client (code word bad : Z) : ModbusTcpClient unit :=
  {| read_input_registers address count slave d :=
       (if address =? bad then None else Some (replicate (Z.to_nat count) word), d);
     read_holding_registers address count slave d :=
       (if address =? 4999 then Some [code] else None, d) |}.

(** The runs of the planning scenario in order of start address. *)
Definition scenario_runs_sorted : list (list Register) :=
  [ [ Register_ 100 "A" "uint16"; with_count 2 (Register_ 101 "B" "uint32") ];
    [ Register_ 200 "C" "uint16" ] ].

(** The four MPPT registers of the SH10RT: one block of four words. *)
Definition mppt_block : list Register := drop 3 _create_sh10rt.

(** A register of a data type the decoder does not know. *)
Definition float_register : Register :=
  measuring (NFloat f0_1) "Hz" "frequency" (with_count 2 (Register_ 300 "F" "float32")).

(** A three-word string register and a five-character text for it. *)
Definition three_word_string : Register :=
  with_count 3 (Register_ 0 "Text" "string").

Definition model_text : list ascii := list_ascii_of_string "SH 10".

(** [coordinator.data] holding the SH10RT identity code. *)
Definition sh10rt_data : gmap key pyval :=
  <[inl "device_type_code" := PInt 0x0E03]> ∅.


(** The three contiguous runs of the SH10RT list: the model name with the
    type code, the temperature, the four MPPT registers. *)
Definition sh10rt_runs : list (list Register) :=
  [ take 2 _create_sh10rt; [inverter_temperature]; mppt_block ].

(** Words that hold the text "AB" between a leading and a trailing blank,
    between a tab and a line feed, and between a no-break space and a next
    line character; and the text "A B" followed by a NUL. *)
Definition blanks_around : list Z := [0x2041; 0x4220].

Definition controls_around : list Z := [0x0941; 0x420A].

Definition latin1_blanks_around : list Z := [0xA041; 0x4285].

Definition blank_inside : list Z := [0x4120; 0x4200].

End scenarios.
Import scenarios.

Close Scope string_scope.

(** ** Proof automation *)

(** Case analysis on the [if]/[elif] chain over [reg.data_type]. *)
Ltac by_data_type reg :=
  destruct (String.eqb (data_type reg) "string") eqn:Estring;
  [|destruct (String.eqb (data_type reg) "uint16") eqn:Euint16;
    [|destruct (String.eqb (data_type reg) "int16") eqn:Eint16;
      [|destruct (String.eqb (data_type reg) "uint32") eqn:Euint32;
        [|destruct (String.eqb (data_type reg) "int32") eqn:Eint32]]]].

(** Goals that relate [is_Some] of a [match] to [is_Some] of its parts. *)
Ltac some_or_none :=
  unfold is_Some; split; intros;
  repeat match goal with
         | H : _ /\ _ |- _ => destruct H
         | H : ex _ |- _ => destruct H
         end;
  try discriminate; repeat split; eauto.

(** Closes a goal [Some (PInt x, _) = Some (PInt value, _)] where [x] is
    [value] up to division and remainder by constants. *)
Ltac same_int value :=
  match goal with
  | |- Some (PInt ?x, _) = _ =>
      replace x with value by (Z.div_mod_to_equations; lia); reflexivity
  end.

(** ** Sorting by address *)

Section sorting.

Implicit Types (reg x : Register) (l registers : list Register).

Lemma sort_by_address_cons reg l :
  sort_by_address (reg :: l) = insert_by_address reg (sort_by_address l).
Proof. reflexivity. Qed.

Lemma insert_by_address_perm reg l : insert_by_address reg l ≡ₚ reg :: l.
Proof.
  induction l as [|x l IH]; simpl; [done|].
  destruct (address reg <=? address x); [done|].
  rewrite IH. apply perm_swap.
Qed.

Lemma sort_by_address_perm l : sort_by_address l ≡ₚ l.
Proof.
  induction l as [|reg l IH]; [done|].
  rewrite sort_by_address_cons, insert_by_address_perm. by f_equiv.
Qed.

Lemma insert_by_address_sorted reg l :
  StronglySorted le_address l -> StronglySorted le_address (insert_by_address reg l).
Proof.
  induction 1 as [|x l Hl IH Hx]; simpl.
  - repeat constructor.
  - destruct (address reg <=? address x) eqn:E.
    + apply Z.leb_le in E. constructor; [by constructor|].
      constructor; [exact E|].
      eapply Forall_impl; [exact Hx|]. unfold le_address. intros; lia.
    + apply Z.leb_gt in E. constructor; [exact IH|].
      rewrite insert_by_address_perm. constructor; [|exact Hx].
      unfold le_address. lia.
Qed.

Lemma sort_by_address_sorted l : StronglySorted le_address (sort_by_address l).
Proof.
  induction l as [|reg l IH]; [constructor|].
  rewrite sort_by_address_cons. by apply insert_by_address_sorted.
Qed.

(** Stability: registers of equal address keep their input order. *)
Lemma insert_by_address_stable (a : Z) reg l :
  filter (fun r => address r = a) (insert_by_address reg l)
  = filter (fun r => address r = a) (reg :: l).
Proof.
  induction l as [|x l IH]; simpl; [done|].
  destruct (address reg <=? address x) eqn:E; [done|].
  apply Z.leb_gt in E.
  rewrite (filter_cons _ x (insert_by_address _ _)), IH, !filter_cons.
  repeat case_decide; try done; lia.
Qed.

Lemma sort_by_address_stable (a : Z) l :
  filter (fun r => address r = a) (sort_by_address l)
  = filter (fun r => address r = a) l.
Proof.
  induction l as [|reg l IH]; [done|].
  rewrite sort_by_address_cons, insert_by_address_stable, !filter_cons, IH. done.
Qed.

(** A list sorted by address is determined by the sub-list it holds at
    each address. *)
Lemma sorted_by_filters l1 l2 :
  StronglySorted le_address l1 -> StronglySorted le_address l2 ->
  (forall a, filter (fun r => address r = a) l1 = filter (fun r => address r = a) l2) ->
  l1 = l2.
Proof.
  intros H1. revert l2.
  induction H1 as [|x t Ht IH Hx]; intros l2 H2 Hf.
  - destruct l2 as [|y u]; [done|].
    specialize (Hf (address y)). by rewrite filter_cons_True in Hf.
  - destruct H2 as [|y u Hu Hy].
    { specialize (Hf (address x)). by rewrite filter_cons_True in Hf. }
    assert (address x <= address y) as Hxy.
    { assert (y ∈ filter (fun r => address r = address y) (x :: t)) as Hin.
      { rewrite Hf, filter_cons_True by done. by left. }
      apply list_elem_of_filter in Hin as [Hkey Hin].
      apply elem_of_cons in Hin as [<-|Hin]; [done|].
      rewrite Forall_forall in Hx. specialize (Hx y Hin). exact Hx. }
    assert (address y <= address x) as Hyx.
    { assert (x ∈ filter (fun r => address r = address x) (y :: u)) as Hin.
      { rewrite <- Hf, filter_cons_True by done. by left. }
      apply list_elem_of_filter in Hin as [Hkey Hin].
      apply elem_of_cons in Hin as [<-|Hin]; [done|].
      rewrite Forall_forall in Hy. specialize (Hy x Hin). exact Hy. }
    assert (address x = address y) as Hkey by lia.
    pose proof (Hf (address x)) as Hhead.
    rewrite filter_cons_True in Hhead by done.
    rewrite (filter_cons_True _ y) in Hhead by done.
    injection Hhead as <- Htail. f_equal. apply IH; [done|].
    intros a. destruct (decide (address x = a)) as [<-|Hne]; [done|].
    specialize (Hf a). by rewrite !filter_cons_False in Hf.
Qed.

(** So [sort_by_address] is the stable sort by address: any list that is
    sorted and keeps the input order at every address is its result. *)
Lemma stable_sort_unique l sorted :
  StronglySorted le_address sorted ->
  (forall a, filter (fun r => address r = a) sorted = filter (fun r => address r = a) l) ->
  sorted = sort_by_address l.
Proof.
  intros Hs Hf. apply sorted_by_filters; [done|apply sort_by_address_sorted|].
  intros a. by rewrite Hf, sort_by_address_stable.
Qed.

Lemma insert_by_address_comm x y l :
  address x <> address y ->
  insert_by_address x (insert_by_address y l)
  = insert_by_address y (insert_by_address x l).
Proof.
  intros Hne. induction l as [|z l IH]; simpl.
  - destruct (address x <=? address y) eqn:E1, (address y <=? address x) eqn:E2;
      try done; lia.
  - destruct (address y <=? address z) eqn:Ey, (address x <=? address z) eqn:Ex; simpl;
      rewrite ?Ey, ?Ex; try done.
    + destruct (address x <=? address y) eqn:E1, (address y <=? address x) eqn:E2;
        try done; lia.
    + destruct (address x <=? address y) eqn:E1; [lia | done].
    + destruct (address y <=? address x) eqn:E1; [lia | done].
    + by rewrite IH.
Qed.

(** With pairwise distinct addresses the sorted list depends on the set of
    registers only. *)
Lemma sort_by_address_of_perm l1 l2 :
  l1 ≡ₚ l2 -> NoDup (address <$> l1) -> sort_by_address l1 = sort_by_address l2.
Proof.
  induction 1 as [|x l l' Hp IH|x y l|l l' l'' Hp IH Hp' IH']; intros Hnd.
  - done.
  - rewrite !sort_by_address_cons, IH; [done|]. by inversion Hnd.
  - rewrite !sort_by_address_cons. apply insert_by_address_comm.
    rewrite !fmap_cons in Hnd. apply NoDup_cons in Hnd as [Hy _].
    rewrite not_elem_of_cons in Hy. by destruct Hy.
  - rewrite IH by done. apply IH'. by rewrite <- Hp.
Qed.

Lemma sort_by_address_of_sorted l :
  StronglySorted le_address l -> sort_by_address l = l.
Proof.
  induction 1 as [|x l Hl IH Hx]; [done|].
  rewrite sort_by_address_cons, IH.
  destruct l as [|y l]; [done|]. simpl.
  inversion Hx as [|? ? Hxy _]; subst. unfold le_address in Hxy.
  destruct (address x <=? address y) eqn:E; [done | lia].
Qed.

End sorting.

(** ** The grouping loop *)

Section grouping.

Implicit Types (reg prev : Register) (run rest current_group : list Register).
Implicit Types (runs : list (list Register)).

Lemma contiguous_groups_concat registers current_group :
  concat (contiguous_groups registers current_group) = current_group ++ registers.
Proof.
  revert current_group.
  induction registers as [|reg rest IH]; intros cur; simpl.
  - destruct cur; simpl; by rewrite ?app_nil_r.
  - destruct (last cur) as [last_reg|] eqn:Hlast.
    + destruct (address reg =? address last_reg + count last_reg).
      * by rewrite IH, <- app_assoc.
      * simpl. by rewrite IH.
    + apply last_None in Hlast as ->. by rewrite IH.
Qed.

Lemma contiguous_groups_nonempty registers current_group :
  Forall (fun block => block <> []) (contiguous_groups registers current_group).
Proof.
  revert current_group.
  induction registers as [|reg rest IH]; intros cur; simpl.
  - destruct cur; by repeat constructor.
  - destruct (last cur) as [last_reg|] eqn:Hlast; [|apply IH].
    destruct (address reg =? address last_reg + count last_reg); [apply IH|].
    constructor; [|apply IH]. intros ->. done.
Qed.

Lemma plan_concat registers : concat (plan registers) = sort_by_address registers.
Proof. unfold plan. by rewrite contiguous_groups_concat. Qed.

Lemma plan_perm registers : concat (plan registers) ≡ₚ registers.
Proof. rewrite plan_concat. apply sort_by_address_perm. Qed.

(** The loop is the sequence of its flushes. *)
Lemma group_loop_for_each {D} (flush : list Register -> M D unit)
    registers current_group (w : world D) :
  group_loop flush registers current_group w
  = for_each flush (contiguous_groups registers current_group) w.
Proof.
  revert current_group w.
  induction registers as [|reg rest IH]; intros cur w; simpl.
  - destruct cur as [|r cur]; [done|]. simpl. unfold bind.
    destruct (flush (r :: cur) w) as [[[]|e] w']; done.
  - destruct (last cur) as [last_reg|]; [|apply IH].
    destruct (address reg =? address last_reg + count last_reg); [apply IH|].
    simpl. unfold bind. destruct (flush cur w) as [[[]|e] w']; [apply IH | done].
Qed.

Lemma contiguous_groups_chained prev run rest current_group :
  last current_group = Some prev -> chained prev run = true ->
  contiguous_groups (run ++ rest) current_group
  = contiguous_groups rest (current_group ++ run).
Proof.
  revert prev current_group.
  induction run as [|reg run IH]; intros prev cur Hlast Hch; simpl.
  - by rewrite app_nil_r.
  - simpl in Hch. rewrite !andb_true_iff in Hch. destruct Hch as [[Ha _] Hch].
    rewrite Hlast. unfold reg_end in Ha. rewrite Ha.
    rewrite (IH reg (cur ++ [reg])); [|apply last_snoc|done].
    by rewrite <- app_assoc.
Qed.

Lemma contiguous_groups_break prev reg rest current_group :
  last current_group = Some prev -> address reg <> reg_end prev ->
  contiguous_groups (reg :: rest) current_group
  = current_group :: contiguous_groups (reg :: rest) [].
Proof.
  intros Hlast Hne. simpl. rewrite Hlast.
  apply Z.eqb_neq in Hne. unfold reg_end in Hne. by rewrite Hne.
Qed.

Lemma gap_free_from_snoc prev reg r current_group :
  last (r :: current_group) = Some prev -> gap_free_from r current_group = true ->
  address reg = reg_end prev ->
  gap_free_from r (current_group ++ [reg]) = true.
Proof.
  revert r. induction current_group as [|x cur IH]; intros r Hlast Hfree Haddr; simpl.
  - simpl in Hlast. injection Hlast as <-. rewrite andb_true_r. by apply Z.eqb_eq.
  - simpl in Hfree. apply andb_true_iff in Hfree as [Hx Hfree].
    rewrite Hx. simpl. rewrite last_cons_cons in Hlast. by apply IH.
Qed.

(** Whatever the input, every block is gap-free ... *)
Lemma contiguous_groups_gap_free registers current_group :
  gap_free current_group = true ->
  Forall (fun block => gap_free block = true) (contiguous_groups registers current_group).
Proof.
  revert current_group.
  induction registers as [|reg rest IH]; intros cur Hfree; simpl.
  - destruct cur; by repeat constructor.
  - destruct (last cur) as [last_reg|] eqn:Hlast.
    + destruct (address reg =? address last_reg + count last_reg) eqn:E.
      * apply IH. destruct cur as [|r cur]; [done|]. simpl.
        apply (gap_free_from_snoc last_reg); [done..|]. by apply Z.eqb_eq in E.
      * constructor; [done|]. by apply IH.
    + apply IH. apply last_None in Hlast as ->. done.
Qed.

Lemma contiguous_groups_head registers current_group :
  current_group <> [] ->
  exists block blocks,
    contiguous_groups registers current_group = block :: blocks
    /\ head block = head current_group.
Proof.
  revert current_group.
  induction registers as [|reg rest IH]; intros cur Hne; simpl.
  - destruct cur; [done|]. eauto.
  - destruct (last cur) as [last_reg|] eqn:Hlast; [|by apply last_None in Hlast].
    destruct (address reg =? address last_reg + count last_reg); [|eauto].
    destruct (IH (cur ++ [reg])) as (block & blocks & -> & Hhead).
    { by destruct cur. }
    exists block, blocks. split; [done|]. rewrite Hhead. by destruct cur.
Qed.

(** ... and no block continues the one before it. *)
Lemma contiguous_groups_maximal registers current_group :
  maximal_blocks (contiguous_groups registers current_group) = true.
Proof.
  revert current_group.
  induction registers as [|reg rest IH]; intros cur; simpl.
  - by destruct cur.
  - destruct (last cur) as [last_reg|] eqn:Hlast; [|apply IH].
    destruct (address reg =? address last_reg + count last_reg) eqn:E; [apply IH|].
    specialize (IH [reg]).
    destruct (contiguous_groups_head rest [reg]) as (block & blocks & Hgroups & Hhead);
      [done|].
    rewrite Hgroups in IH |- *.
    change (negb (run_start block =? run_end cur) && maximal_blocks (block :: blocks) = true).
    rewrite IH, andb_true_r. unfold run_start, run_end, reg_end.
    rewrite Hhead, Hlast. simpl. by rewrite E.
Qed.

(** What a run promises about its members. *)
Lemma chained_facts prev run :
  chained prev run = true -> 1 <= count prev ->
  StronglySorted lt_address (prev :: run)
  /\ Forall (fun r => address prev <= address r /\ reg_end r <= run_end (prev :: run)
                      /\ 1 <= count r) (prev :: run).
Proof.
  revert prev. induction run as [|reg run IH]; intros prev Hch Hc.
  - split; [repeat constructor|].
    repeat constructor; unfold run_end, reg_end; simpl; lia.
  - simpl in Hch. rewrite !andb_true_iff in Hch. destruct Hch as [[Ha Hc'] Hch].
    apply Z.eqb_eq in Ha. apply Z.leb_le in Hc'.
    destruct (IH reg Hch Hc') as [Hs Hf].
    assert (run_end (prev :: reg :: run) = run_end (reg :: run)) as He.
    { unfold run_end. by rewrite last_cons_cons. }
    rewrite He. unfold reg_end in *.
    assert (address reg <= run_end (reg :: run) - 1) as Hend.
    { inversion Hf as [|? ? [_ [H1 H2]] _]; subst. lia. }
    split.
    + constructor; [done|].
      eapply Forall_impl; [exact Hf|]. unfold lt_address. simpl. intros r (? & ? & ?). lia.
    + constructor; [lia|].
      eapply Forall_impl; [exact Hf|]. simpl. intros r (? & ? & ?). lia.
Qed.

Lemma run_facts run :
  is_run run = true ->
  run <> []
  /\ StronglySorted lt_address run
  /\ Forall (fun r => run_start run <= address r /\ reg_end r <= run_end run
                      /\ 1 <= count r) run.
Proof.
  destruct run as [|prev run]; [done|]. simpl.
  rewrite andb_true_iff, Z.leb_le. intros [Hc Hch].
  destruct (chained_facts prev run Hch Hc) as [Hs Hf]. done.
Qed.

Lemma run_start_lt_end run : is_run run = true -> run_start run < run_end run.
Proof.
  intros Hrun. destruct (run_facts run Hrun) as (Hne & _ & Hf).
  destruct run as [|r run]; [done|].
  inversion Hf as [|? ? (H1 & H2 & H3) _]; subst.
  unfold run_start, reg_end in *. simpl in *. lia.
Qed.

Lemma ascending_runs_above (b : Z) runs :
  Forall (fun run => is_run run = true) runs -> ascending_runs runs = true ->
  match runs with run :: _ => b < run_start run | [] => True end ->
  Forall (fun r => b < address r) (concat runs).
Proof.
  revert b. induction runs as [|run runs IH]; intros b Hruns Hasc Hb; simpl.
  - constructor.
  - apply Forall_cons in Hruns as [Hrun Hruns].
    destruct (run_facts run Hrun) as (_ & _ & Hf).
    apply Forall_app. split.
    + eapply Forall_impl; [exact Hf|]. simpl. intros r (? & ? & ?). lia.
    + pose proof (run_start_lt_end run Hrun) as Hlt.
      simpl in Hasc. destruct runs as [|run2 runs]; [constructor|].
      apply andb_true_iff in Hasc as [Hgap Hasc]. apply Z.ltb_lt in Hgap.
      eapply Forall_impl; [apply (IH (run_end run)); [done..|exact Hgap]|].
      simpl. intros r ?. lia.
Qed.

Lemma ascending_runs_sorted runs :
  Forall (fun run => is_run run = true) runs -> ascending_runs runs = true ->
  StronglySorted lt_address (concat runs).
Proof.
  induction runs as [|run runs IH]; intros Hruns Hasc; simpl; [constructor|].
  apply Forall_cons in Hruns as [Hrun Hruns].
  destruct (run_facts run Hrun) as (_ & Hs & Hf).
  assert (ascending_runs runs = true) as Hasc'.
  { simpl in Hasc. destruct runs; [done|]. by apply andb_true_iff in Hasc as [_ ?]. }
  apply StronglySorted_app_2; [|done|by apply IH].
  intros r1 r2 Hr1 Hr2.
  destruct runs as [|run2 runs]; [by apply elem_of_nil in Hr2|].
  simpl in Hasc. apply andb_true_iff in Hasc as [Hgap _]. apply Z.ltb_lt in Hgap.
  pose proof (ascending_runs_above (run_end run) (run2 :: runs) Hruns Hasc' Hgap) as Hab.
  rewrite Forall_forall in Hab, Hf.
  specialize (Hab r2 Hr2). destruct (Hf r1 Hr1) as (? & ? & ?).
  unfold lt_address, reg_end in *. lia.
Qed.

(** Runs listed in ascending order are exactly the groups of their
    concatenation. *)
Lemma contiguous_groups_of_runs runs :
  Forall (fun run => is_run run = true) runs -> ascending_runs runs = true ->
  contiguous_groups (concat runs) [] = runs.
Proof.
  induction runs as [|run runs IH]; intros Hruns Hasc; [done|].
  apply Forall_cons in Hruns as [Hrun Hruns].
  destruct run as [|r run]; [done|].
  simpl in Hrun. apply andb_true_iff in Hrun as [Hc Hch].
  change (concat ((r :: run) :: runs)) with (r :: (run ++ concat runs)).
  change (contiguous_groups (r :: run ++ concat runs) [])
    with (contiguous_groups (run ++ concat runs) [r]).
  rewrite (contiguous_groups_chained r run (concat runs) [r]); [|done..].
  change ([r] ++ run) with (r :: run).
  destruct runs as [|run2 runs]; [done|].
  simpl in Hasc. apply andb_true_iff in Hasc as [Hgap Hasc]. apply Z.ltb_lt in Hgap.
  pose proof (Forall_inv Hruns) as Hrun2. simpl in Hrun2.
  destruct run2 as [|r2 run2]; [done|].
  destruct (last (r :: run)) as [prev|] eqn:Hlast; [|by apply last_None in Hlast].
  change (concat ((r2 :: run2) :: runs)) with (r2 :: (run2 ++ concat runs)).
  rewrite (contiguous_groups_break prev r2 _ (r :: run)); [|done|].
  - f_equal. apply (IH Hruns). simpl. done.
  - unfold run_end, run_start in Hgap. rewrite Hlast in Hgap. simpl in Hgap. lia.
Qed.

End grouping.

(** ** Runs in any order *)

Section runs.

Implicit Types (run : list Register) (runs : list (list Register)).

Lemma sort_runs_cons run runs :
  sort_runs (run :: runs) = insert_run run (sort_runs runs).
Proof. reflexivity. Qed.

Lemma insert_run_perm run runs : insert_run run runs ≡ₚ run :: runs.
Proof.
  induction runs as [|x runs IH]; simpl; [done|].
  destruct (run_start run <=? run_start x); [done|].
  rewrite IH. apply perm_swap.
Qed.

Lemma sort_runs_perm runs : sort_runs runs ≡ₚ runs.
Proof.
  induction runs as [|run runs IH]; [done|].
  rewrite sort_runs_cons, insert_run_perm. by f_equiv.
Qed.

Lemma concat_perm runs1 runs2 : runs1 ≡ₚ runs2 -> concat runs1 ≡ₚ concat runs2.
Proof.
  induction 1 as [|x l l' _ IH|x y l|l l' l'' _ IH _ IH']; simpl.
  - done.
  - by rewrite IH.
  - rewrite !app_assoc. f_equiv. apply Permutation_app_comm.
  - by rewrite IH.
Qed.

Lemma insert_run_ascending run runs :
  is_run run = true -> Forall (fun x => is_run x = true) runs ->
  ascending_runs runs = true -> forallb (apart run) runs = true ->
  ascending_runs (insert_run run runs) = true.
Proof.
  intros Hrun. pose proof (run_start_lt_end run Hrun) as Hlt.
  induction runs as [|x runs IH]; intros Hruns Hasc Hap; [done|].
  apply Forall_cons in Hruns as [Hx Hruns].
  pose proof (run_start_lt_end x Hx) as Hltx.
  simpl in Hap. apply andb_true_iff in Hap as [Hax Hap].
  unfold apart in Hax. rewrite orb_true_iff, !Z.ltb_lt in Hax.
  simpl. destruct (run_start run <=? run_start x) eqn:E.
  - apply Z.leb_le in E. simpl.
    apply andb_true_iff. split; [apply Z.ltb_lt; lia | exact Hasc].
  - apply Z.leb_gt in E.
    assert (ascending_runs runs = true) as Hasc'.
    { simpl in Hasc. destruct runs; [done|]. by apply andb_true_iff in Hasc as [_ ?]. }
    specialize (IH Hruns Hasc' Hap).
    change (ascending_runs (x :: insert_run run runs) = true).
    destruct runs as [|y runs].
    + simpl. rewrite andb_true_r. apply Z.ltb_lt. lia.
    + simpl in Hasc. apply andb_true_iff in Hasc as [Hxy _].
      simpl in IH |- *.
      destruct (run_start run <=? run_start y);
        (apply andb_true_iff; split; [|exact IH]); [apply Z.ltb_lt; lia | exact Hxy].
Qed.

Lemma sort_runs_ascending runs :
  Forall (fun x => is_run x = true) runs -> pairwise_apart runs = true ->
  ascending_runs (sort_runs runs) = true.
Proof.
  induction runs as [|run runs IH]; intros Hruns Hap; [done|].
  apply Forall_cons in Hruns as [Hrun Hruns].
  simpl in Hap. apply andb_true_iff in Hap as [Hrun_ap Hap].
  rewrite sort_runs_cons. apply insert_run_ascending; [done| |by apply IH|].
  - by rewrite sort_runs_perm.
  - apply forallb_forall. intros x Hx.
    rewrite forallb_forall in Hrun_ap. apply Hrun_ap.
    apply list_elem_of_In. apply list_elem_of_In in Hx. by rewrite <- (sort_runs_perm runs).
Qed.

Lemma lt_address_NoDup (l : list Register) :
  StronglySorted lt_address l -> NoDup (address <$> l).
Proof.
  induction 1 as [|x l _ IH Hx]; simpl; constructor; [|done].
  rewrite list_elem_of_fmap. intros (y & Hy & Hin).
  rewrite Forall_forall in Hx. specialize (Hx y Hin). unfold lt_address in Hx. lia.
Qed.

Lemma lt_address_le_address (l : list Register) :
  StronglySorted lt_address l -> StronglySorted le_address l.
Proof.
  induction 1 as [|x l _ IH Hx]; constructor; [done|].
  eapply Forall_impl; [exact Hx|]. unfold lt_address, le_address. intros; lia.
Qed.

(** The plan of any arrangement of separated runs is the runs themselves,
    listed by start address. *)
Lemma plan_of_runs registers runs :
  Forall (fun run => is_run run = true) runs -> pairwise_apart runs = true ->
  registers ≡ₚ concat runs ->
  plan registers = sort_runs runs.
Proof.
  intros Hruns Hap Hperm.
  assert (Forall (fun run => is_run run = true) (sort_runs runs)) as Hruns'
    by (by rewrite sort_runs_perm).
  pose proof (sort_runs_ascending runs Hruns Hap) as Hasc.
  pose proof (ascending_runs_sorted _ Hruns' Hasc) as Hsorted.
  assert (concat (sort_runs runs) ≡ₚ registers) as Hperm'.
  { rewrite Hperm. apply concat_perm, sort_runs_perm. }
  unfold plan.
  rewrite <- (sort_by_address_of_perm _ _ Hperm') by (by apply lt_address_NoDup).
  rewrite sort_by_address_of_sorted by (by apply lt_address_le_address).
  by apply contiguous_groups_of_runs.
Qed.

Lemma total_count_from (a : Z) (l : list Register) :
  foldl (fun acc reg => acc + count reg) a l = a + total_count l.
Proof.
  unfold total_count. revert a.
  induction l as [|x l IH]; intros a; simpl; [lia|].
  rewrite (IH (a + count x)), (IH (0 + count x)). lia.
Qed.

Lemma total_count_cons (x : Register) (l : list Register) :
  total_count (x :: l) = count x + total_count l.
Proof. unfold total_count at 1. simpl. rewrite total_count_from. lia. Qed.

Lemma total_count_app (l1 l2 : list Register) :
  total_count (l1 ++ l2) = total_count l1 + total_count l2.
Proof.
  induction l1 as [|x l1 IH]; simpl; [done|].
  rewrite !total_count_cons, IH. lia.
Qed.

Lemma total_count_perm (l1 l2 : list Register) :
  l1 ≡ₚ l2 -> total_count l1 = total_count l2.
Proof.
  induction 1; rewrite ?total_count_cons in *; lia.
Qed.

Lemma plan_words_concat (blocks : list (list Register)) :
  plan_words blocks = total_count (concat blocks).
Proof.
  induction blocks as [|b blocks IH]; simpl; [done|].
  by rewrite total_count_app, IH.
Qed.

(** No padding: the plan requests exactly the words of its registers. *)
Lemma plan_words_total registers : plan_words (plan registers) = total_count registers.
Proof. rewrite plan_words_concat. apply total_count_perm, plan_perm. Qed.

End runs.

(** ** What a group read sends *)

Section group_read.

Context {D : Type} (client : ModbusTcpClient D) (slave : Z).

Lemma call_client_wire fn address count (w : world D) :
  exists result d,
    call_client client fn address count slave w
    = (Ok result,
       {| device := d;
          wire := wire w ++ [{| req_fn := fn; req_address := address;
                                req_count := count; req_slave := slave |}];
          data := data w |}).
Proof.
  unfold call_client.
  destruct fn;
    [destruct (read_input_registers client address count slave (device w))
    |destruct (read_holding_registers client address count slave (device w))];
    eauto.
Qed.

Lemma process_results_wire words offset registers (w : world D) :
  wire (snd (process_results words offset registers w)) = wire w.
Proof.
  revert offset w. induction registers as [|reg rest IH]; intros offset w; simpl; [done|].
  destruct (decode_register words offset reg) as [[value offset']|]; [|done].
  unfold bind. simpl. by rewrite IH.
Qed.

(** A group read sends exactly one request: for the whole group, in the
    register space of its first member. *)
Lemma read_register_group_wire first rest (w : world D) :
  wire (snd (_read_register_group client slave (first :: rest) w))
  = wire w ++ [{| req_fn := if String.eqb (register_type first) "input"
                            then ReadInput else ReadHolding;
                  req_address := address first;
                  req_count := total_count (first :: rest);
                  req_slave := slave |}].
Proof.
  unfold _read_register_group, bind.
  destruct (String.eqb (register_type first) "input");
    [destruct (call_client_wire ReadInput (address first) (total_count (first :: rest)) w)
       as (result & d & ->)
    |destruct (call_client_wire ReadHolding (address first) (total_count (first :: rest)) w)
       as (result & d & ->)];
    (destruct result as [words|]; [by rewrite process_results_wire | done]).
Qed.

End group_read.

(** ** The registry *)

Section registry.

Lemma get_model_Some (model_code : Z) (registers : list Register) :
  get_model model_code = Some registers ->
  (model_code = 0x0E03 /\ registers = _create_sh10rt)
  \/ (model_code = 0x0E26 /\ registers = _create_sh25t).
Proof.
  unfold get_model, models. intros H.
  apply lookup_insert_Some in H as [[<- <-]|[_ H]]; [by left|].
  apply lookup_insert_Some in H as [[<- <-]|[_ H]]; [by right|].
  by rewrite lookup_empty in H.
Qed.

(** The codes the registry does not recognize. *)
Lemma get_model_None (model_code : Z) :
  get_model model_code = None <-> model_code <> 0x0E03 /\ model_code <> 0x0E26.
Proof.
  unfold get_model, models. rewrite !lookup_insert_None, lookup_empty.
  split; [intros [[_ ?] ?]; split; congruence | intros [? ?]; repeat split; congruence].
Qed.

(** Every register of every model is an input register. *)
Lemma get_model_input (model_code : Z) (registers : list Register) :
  get_model model_code = Some registers ->
  Forall (fun r => register_type r = "input"%string) registers.
Proof.
  intros H. destruct (get_model_Some _ _ H) as [[_ ->]|[_ ->]]; repeat constructor.
Qed.

End registry.

(** ** The planner *)

Section planner.

(** When the registers are, in any order, the members of K contiguous
    runs that are pairwise disjoint and not adjacent, the plan consists of
    exactly these K runs, listed by start address; every block is in
    strictly ascending address order; the words requested by the plan are
    exactly the words of the registers.  No register gives no block, one
    register gives one block holding it. *)
Lemma plan_of_contiguous_runs registers runs :
  Forall (fun run => is_run run = true) runs ->
  pairwise_apart runs = true ->
  registers ≡ₚ concat runs ->
  plan registers = sort_runs runs
  /\ plan registers ≡ₚ runs
  /\ length (plan registers) = length runs
  /\ Forall (StronglySorted lt_address) (plan registers)
  /\ plan_words (plan registers) = total_count registers
  /\ plan [] = []
  /\ (forall r, plan [r] = [[r]]).
Proof.
  intros Hruns Hap Hperm.
  pose proof (plan_of_runs registers runs Hruns Hap Hperm) as Hplan.
  split; [exact Hplan|]. rewrite Hplan.
  split; [apply sort_runs_perm|].
  split; [by rewrite sort_runs_perm|].
  split.
  - rewrite sort_runs_perm. eapply Forall_impl; [exact Hruns|].
    intros run Hrun. by destruct (run_facts run Hrun) as (_ & ? & _).
  - split; [|done]. rewrite <- Hplan. apply plan_words_total.
Qed.




End planner.

(** ** Decoding *)

Section decoding.

Implicit Types (words : list Z) (reg : Register) (registers : list Register).

Lemma getitem_nonneg words (i : Z) :
  0 <= i -> getitem words i = words !! Z.to_nat i.
Proof. intros Hi. unfold getitem. by rewrite (proj2 (Z.leb_le 0 i) Hi). Qed.

Lemma getitem_in_bounds words (i : Z) :
  0 <= i < Z.of_nat (length words) -> is_Some (getitem words i).
Proof.
  intros Hi. rewrite getitem_nonneg by lia. apply lookup_lt_is_Some. lia.
Qed.

Lemma elem_of_range (i n : Z) : i ∈ range n <-> 0 <= i < n.
Proof.
  unfold range. rewrite list_elem_of_fmap. split.
  - intros (k & -> & Hk). apply elem_of_seq in Hk. lia.
  - intros Hi. exists (Z.to_nat i). split; [lia|]. apply elem_of_seq. lia.
Qed.

Lemma string_chars_is_Some words offset indices chars :
  is_Some (string_chars words offset indices chars)
  <-> Forall (fun i => is_Some (getitem words (offset + i))) indices.
Proof.
  revert chars. induction indices as [|i indices IH]; intros chars; simpl.
  - split; [constructor | eauto].
  - rewrite Forall_cons. destruct (getitem words (offset + i)) as [word|].
    + rewrite IH. split; [eauto | tauto].
    + split; [by intros [? ?] | by intros [[? ?] _]].
Qed.

(** The decoder raises IndexError exactly when one of its subscripts is
    out of range. *)
Lemma decode_register_is_Some words offset reg :
  is_Some (decode_register words offset reg)
  <-> Forall (fun i => is_Some (getitem words i)) (register_reads offset reg).
Proof.
  unfold decode_register, register_reads. by_data_type reg.
  - rewrite Forall_fmap.
    rewrite <- (string_chars_is_Some words offset (range (count reg)) []).
    destruct (string_chars words offset (range (count reg)) []);
      some_or_none.
  - rewrite Forall_singleton.
    destruct (getitem words offset); some_or_none.
  - rewrite Forall_singleton.
    destruct (getitem words offset); some_or_none.
  - rewrite Forall_cons, Forall_singleton.
    destruct (getitem words offset), (getitem words (offset + 1));
      some_or_none.
  - rewrite Forall_cons, Forall_singleton.
    destruct (getitem words offset), (getitem words (offset + 1));
      some_or_none.
  - split; [constructor | eauto].
Qed.

Lemma decode_register_advance words offset reg value offset' :
  decode_register words offset reg = Some (value, offset') ->
  offset' = offset + advance reg.
Proof.
  unfold decode_register, advance. by_data_type reg; intros H;
    repeat case_match; by simplify_eq.
Qed.

Lemma process_results_ok {D} words offset registers (w : world D) :
  fst (process_results words offset registers w) = Ok tt
  <-> Forall (fun i => is_Some (getitem words i)) (group_reads offset registers).
Proof.
  revert offset w. induction registers as [|reg rest IH]; intros offset w; simpl.
  - split; [constructor | done].
  - rewrite Forall_app, <- decode_register_is_Some.
    destruct (decode_register words offset reg) as [[value offset']|] eqn:E.
    + apply decode_register_advance in E as ->.
      unfold bind. simpl. rewrite IH. split; [eauto | tauto].
    + split; [done | by intros [[? ?] _]].
Qed.

(** Where the width invariant holds the decoder consumes exactly the words
    the request counted. *)
Lemma width_ok_advance reg :
  width_ok reg = true -> advance reg = count reg /\ 1 <= count reg.
Proof.
  unfold width_ok, advance. rewrite !andb_true_iff, Z.leb_le. intros [[Hc H32] H16].
  by_data_type reg; try done;
    repeat match goal with
           | E : String.eqb _ _ = true |- _ => apply String.eqb_eq in E; rewrite E in *
           end; simpl in *; lia.
Qed.

Lemma register_reads_in_width offset reg :
  width_ok reg = true ->
  Forall (fun i => offset <= i < offset + count reg) (register_reads offset reg).
Proof.
  intros Hok. destruct (width_ok_advance reg Hok) as [Hadv Hc].
  unfold advance in Hadv. unfold register_reads. by_data_type reg.
  - rewrite Forall_fmap. apply Forall_forall. intros i Hi.
    apply elem_of_range in Hi. simpl. lia.
  - repeat constructor; lia.
  - repeat constructor; lia.
  - repeat constructor; lia.
  - repeat constructor; lia.
  - constructor.
Qed.

Lemma group_reads_in_bounds offset registers :
  Forall (fun r => width_ok r = true) registers ->
  Forall (fun i => offset <= i < offset + total_count registers)
         (group_reads offset registers).
Proof.
  revert offset. induction registers as [|reg rest IH]; intros offset Hok; simpl.
  - constructor.
  - apply Forall_cons in Hok as [Hreg Hrest].
    destruct (width_ok_advance reg Hreg) as [Hadv Hc].
    assert (0 <= total_count rest) as Hrest_nonneg.
    { clear -Hrest. induction rest as [|r rest IH]; [done|].
      apply Forall_cons in Hrest as [Hr Hrest].
      destruct (width_ok_advance r Hr). rewrite total_count_cons.
      specialize (IH Hrest). lia. }
    rewrite total_count_cons. apply Forall_app. split.
    + eapply Forall_impl; [by apply register_reads_in_width|]. simpl. intros; lia.
    + eapply Forall_impl; [apply (IH (offset + advance reg) Hrest)|].
      simpl. intros; lia.
Qed.

(** X11.  For a block of registers that keep the width invariant, decoding a
    buffer of [total_count] words reads in bounds only and raises nothing. *)
Lemma decode_in_bounds {D} words registers (w : world D) :
  Forall (fun r => width_ok r = true) registers ->
  Z.of_nat (length words) = total_count registers ->
  Forall (fun i => 0 <= i < Z.of_nat (length words)) (group_reads 0 registers)
  /\ fst (process_results words 0 registers w) = Ok tt.
Proof.
  intros Hok Hlen.
  pose proof (group_reads_in_bounds 0 registers Hok) as Hb.
  rewrite <- Hlen in Hb. split; [exact Hb|].
  apply process_results_ok.
  eapply Forall_impl; [exact Hb|]. intros i Hi. by apply getitem_in_bounds.
Qed.

(** The reference decoders are the two's-complement readings. *)
Lemma int16_of_word_range (raw : Z) :
  is_word raw ->
  -32768 <= int16_of_word raw <= 32767 /\ int16_of_word raw mod 0x10000 = raw.
Proof.
  unfold is_word, int16_of_word. intros Hw. case_decide.
  - split; [lia|]. rewrite <- (Z.mod_add _ 1) by lia.
    replace (raw - 65536 + 1 * 65536) with raw by lia. apply Z.mod_small. lia.
  - split; [lia|]. apply Z.mod_small. lia.
Qed.

Lemma uint32_of_words_value (high low : Z) :
  is_word high -> is_word low -> uint32_of_words high low = high * 0x10000 + low.
Proof.
  unfold is_word, uint32_of_words. intros Hh Hl.
  pose proof (Z.add_lor_land (Z.shiftl high 16) low) as Hadd.
  assert (Z.land (Z.shiftl high 16) low = 0) as Hland.
  { apply Z.bits_inj'. intros n Hn. rewrite Z.land_spec, Z.bits_0.
    destruct (Z.lt_ge_cases n 16).
    - by rewrite Z.shiftl_spec_low by lia.
    - rewrite (Z.bits_above_log2 low n), andb_false_r; [done|lia|].
      destruct (Z.eq_dec low 0) as [->|]; [simpl; lia|].
      apply Z.log2_lt_pow2; [lia|]. eapply Z.lt_le_trans with (2 ^ 16); [lia|].
      apply Z.pow_le_mono_r; lia. }
  assert (Z.shiftl high 16 = high * 65536) as Hshift
    by (by rewrite Z.shiftl_mul_pow2 by lia).
  rewrite Hland in Hadd. lia.
Qed.

Lemma int32_of_words_range (high low : Z) :
  is_word high -> is_word low ->
  - 0x80000000 <= int32_of_words high low <= 0x7FFFFFFF
  /\ int32_of_words high low mod 0x100000000 = high * 0x10000 + low.
Proof.
  intros Hh Hl. unfold int32_of_words. simpl.
  rewrite (uint32_of_words_value high low Hh Hl). unfold is_word in *. case_decide.
  - split; [lia|]. rewrite <- (Z.mod_add _ 1) by lia.
    replace (high * 65536 + low - 4294967296 + 1 * 4294967296)
      with (high * 65536 + low) by lia.
    apply Z.mod_small. lia.
  - split; [lia|]. apply Z.mod_small. lia.
Qed.


Lemma process_results_raise {D} words offset registers (w : world D) (e : exn) :
  fst (process_results words offset registers w) = Raise e -> e = IndexError.
Proof.
  revert offset w. induction registers as [|reg rest IH]; intros offset w; simpl; [done|].
  destruct (decode_register words offset reg) as [[value offset']|].
  - unfold bind. simpl. apply IH.
  - simpl. congruence.
Qed.


(** C2, at the SH25T model: its "Total DC Power" register is declared as a
    uint32 with the default count of one word, so the list of identity code
    0x0E26 breaks the width invariant; the list of 0x0E03 keeps it. *)
Lemma sh25t_breaks_width_invariant :
  forallb width_ok <$> get_model 0x0E26 = Some false
  /\ (exists r, last _create_sh25t = Some r /\ address r = 5016
                /\ data_type r = "uint32"%string /\ count r = 1
                /\ width_ok r = false)
  /\ forallb width_ok <$> get_model 0x0E03 = Some true.
Proof.
  split; [reflexivity|]. split; [|reflexivity].
  eexists. split; [reflexivity|]. by repeat split.
Qed.

(** C3, at the SH25T model: the last block of its plan counts seven words,
    yet decoding it subscripts index 7, so on every seven-word buffer the
    decoder raises IndexError. *)
Lemma sh25t_block_reads_past_buffer :
  exists block,
    last (plan _create_sh25t) = Some block
    /\ total_count block = 7
    /\ 7 ∈ group_reads 0 block
    /\ (forall D words (w : world D),
          length words = 7%nat ->
          fst (process_results words 0 block w) = Raise IndexError)
    /\ fst (_read_register_group (scripted_client 0x0E26 7 0) 1 block (fresh tt))
       = Raise IndexError
    /\ wire (snd (_read_register_group (scripted_client 0x0E26 7 0) 1 block (fresh tt)))
       = [{| req_fn := ReadInput; req_address := 5010; req_count := 7; req_slave := 1 |}].
Proof.
  exists (drop 3 _create_sh25t). split; [reflexivity|]. split; [reflexivity|].
  assert (7 ∈ group_reads 0 (drop 3 _create_sh25t)) as Hin.
  { apply list_elem_of_In. vm_compute. tauto. }
  split; [exact Hin|].
  split; [|split; vm_compute; reflexivity].
  intros D words w Hlen.
  destruct (fst (process_results words 0 (drop 3 _create_sh25t) w)) as [[]|e] eqn:E.
  - apply process_results_ok in E. rewrite Forall_forall in E.
    destruct (E 7 Hin) as [x Hx].
    rewrite getitem_nonneg in Hx by lia.
    apply lookup_lt_Some in Hx. change (Z.to_nat 7) with 7%nat in Hx. lia.
  - by rewrite (process_results_raise _ _ _ _ _ E).
Qed.

(** C6.  At every offset the buffer can be read at, the numeric decoders
    are the reference ones: uint16 is the word, int16 subtracts 0x10000
    above 0x7FFF, uint32 is the high word shifted by 16 or-ed with the low
    word, int32 subtracts 0x100000000 above 0x7FFFFFFF; the offset moves by
    one word for 16-bit and two for 32-bit types.  So 0x7FFF is 32767 and
    0x8000 is -32768 as int16, the words 1, 2 are 65538 as uint32, and the
    words 0xFFFF, 0xFFFF are -1 as int32. *)
Theorem decode_numeric_rules words offset raw reg :
  getitem words offset = Some raw ->
  (data_type reg = "uint16"%string ->
     decode_register words offset reg = Some (PInt raw, offset + 1))
  /\ (data_type reg = "int16"%string ->
        decode_register words offset reg = Some (PInt (int16_of_word raw), offset + 1))
  /\ (forall low, getitem words (offset + 1) = Some low ->
        (data_type reg = "uint32"%string ->
           decode_register words offset reg
           = Some (PInt (uint32_of_words raw low), offset + 2))
        /\ (data_type reg = "int32"%string ->
              decode_register words offset reg
              = Some (PInt (int32_of_words raw low), offset + 2)))
  /\ decode_register [0x7FFF] 0 (Register_ 0 "N" "int16") = Some (PInt 32767, 1)
  /\ decode_register [0x8000] 0 (Register_ 0 "N" "int16") = Some (PInt (-32768), 1)
  /\ decode_register [0x0001; 0x0002] 0 (Register_ 0 "N" "uint32") = Some (PInt 65538, 2)
  /\ decode_register [0xFFFF; 0xFFFF] 0 (Register_ 0 "N" "int32") = Some (PInt (-1), 2).
Proof.
  intros Hraw. unfold decode_register at 1 2 3 4.
  split; [intros ->; simpl; by rewrite Hraw|].
  split.
  { intros ->. simpl. rewrite Hraw. unfold int16_of_word.
    rewrite Z.gtb_ltb. case_decide; destruct (Z.ltb_spec 32767 raw); try lia; done. }
  split; [|by repeat split].
  intros low Hlow. split; intros ->; simpl; rewrite Hraw, Hlow; [done|].
  unfold int32_of_words, uint32_of_words. simpl. rewrite Z.gtb_ltb.
  case_decide; destruct (Z.ltb_spec 2147483647 (Z.lor (Z.shiftl raw 16) low));
    try lia; done.
Qed.

Lemma decode_numeric_rules_witness :
  getitem [0xFFFF; 0xFFFF] 0 = Some 0xFFFF
  /\ decode_register [0xFFFF; 0xFFFF] 0 (Register_ 0 "N" "int32") = Some (PInt (-1), 2)
  /\ decode_register [0xFFFF; 0xFFFF] 0 (Register_ 0 "N" "int16") = Some (PInt (-1), 1).
Proof.
  assert (getitem [0xFFFF; 0xFFFF] 0 = Some 0xFFFF) as H by reflexivity.
  split; [exact H|]. split.
  - destruct (decode_numeric_rules [0xFFFF; 0xFFFF] 0 0xFFFF (Register_ 0 "N" "int32") H)
      as (_ & _ & H32 & _).
    destruct (H32 0xFFFF eq_refl) as [_ Hint32]. exact (Hint32 eq_refl).
  - destruct (decode_numeric_rules [0xFFFF; 0xFFFF] 0 0xFFFF (Register_ 0 "N" "int16") H)
      as (_ & H16 & _).
    exact (H16 eq_refl).
Defined.

Lemma high_byte (word : Z) :
  is_word word -> Z.land (Z.shiftr word 8) 0xFF = Z.shiftr word 8.
Proof.
  unfold is_word. intros Hw. change 255 with (Z.ones 8).
  rewrite Z.land_ones, Z.shiftr_div_pow2 by lia. apply Z.mod_small.
  change (2 ^ 8) with 256. split; [apply Z.div_pos; lia|].
  apply Z.div_lt_upper_bound; lia.
Qed.

Lemma string_chars_words pre taken words post chars :
  Forall is_word words ->
  string_chars (pre ++ taken ++ words ++ post) (Z.of_nat (length pre))
    (Z.of_nat <$> seq (length taken) (length words)) chars
  = Some (chars ++ words ≫= word_chars).
Proof.
  revert taken chars. induction words as [|word words IH]; intros taken chars Hw.
  - simpl. by rewrite app_nil_r.
  - apply Forall_cons in Hw as [Hword Hwords]. simpl.
    rewrite getitem_nonneg by lia.
    rewrite <- Nat2Z.inj_add, Nat2Z.id.
    rewrite (app_assoc pre taken), list_lookup_middle by (by rewrite length_app).
    rewrite high_byte by done.
    replace ((pre ++ taken) ++ word :: words ++ post)
      with (pre ++ (taken ++ [word]) ++ words ++ post)
      by (by rewrite <- !app_assoc).
    replace (S (length taken)) with (length (taken ++ [word]))
      by (rewrite length_app; simpl; lia).
    rewrite IH by done. by rewrite <- app_assoc.
Qed.

End decoding.

(** ** The mapping and the sensor state *)

Section mapping.

Context {D : Type}.

Implicit Types (words : list Z) (reg : Register) (registers : list Register).
Implicit Types (w : world D).

Lemma process_results_data_other words offset registers w (k : key) :
  (forall reg, reg ∈ registers -> k <> inr (address reg)) ->
  data (snd (process_results words offset registers w)) !! k = data w !! k.
Proof.
  revert offset w. induction registers as [|reg rest IH]; intros offset w Hk; simpl; [done|].
  destruct (decode_register words offset reg) as [[value offset']|]; [|done].
  unfold bind. simpl. rewrite IH.
  - simpl. apply lookup_insert_ne. intros Heq. by apply (Hk reg); [left|].
  - intros r Hr. apply Hk. by right.
Qed.




End mapping.



(** A string under a float scale other than 1.0 cannot be multiplied. *)
Lemma state_of_scaled_string :
  state (<[inr 0 := PStr "AB"]> ∅)
        (measuring (NFloat f0_1) "V" "voltage" two_word_string)
  = Raise TypeError.
Proof. reflexivity. Qed.

(** ** The poll cycle *)

Section cycle.

Context {D : Type} (client : ModbusTcpClient D) (slave : Z).

Implicit Types (w : world D).

(** A failed group read changes nothing but the list of requests sent. *)
Lemma read_register_group_error first rest w :
  fst (call_client client
         (if String.eqb (register_type first) "input" then ReadInput else ReadHolding)
         (address first) (total_count (first :: rest)) slave w) = Ok None ->
  fst (_read_register_group client slave (first :: rest) w) = Ok tt
  /\ data (snd (_read_register_group client slave (first :: rest) w)) = data w.
Proof.
  unfold _read_register_group, bind.
  destruct (String.eqb (register_type first) "input");
    [destruct (call_client_wire client slave ReadInput (address first)
                 (total_count (first :: rest)) w) as (result & d & ->)
    |destruct (call_client_wire client slave ReadHolding (address first)
                 (total_count (first :: rest)) w) as (result & d & ->)];
    simpl; intros [= ->]; done.
Qed.

(** A successful group read decodes the response from offset 0. *)
Lemma read_register_group_success first rest w w1 words :
  call_client client
    (if String.eqb (register_type first) "input" then ReadInput else ReadHolding)
    (address first) (total_count (first :: rest)) slave w = (Ok (Some words), w1) ->
  _read_register_group client slave (first :: rest) w
  = process_results words 0 (first :: rest) w1.
Proof.
  unfold _read_register_group, bind.
  destruct (String.eqb (register_type first) "input"); by intros ->.
Qed.

Lemma await_plain_call_raises (call : M D unit) w :
  exists e, fst (await_plain_call call w) = Raise e.
Proof.
  unfold await_plain_call, bind, raise.
  destruct (call w) as [[[]|e] w']; eauto.
Qed.

Lemma for_each_await_raises (read : list Register -> M D unit) group groups w :
  exists e,
    fst (for_each (fun g => await_plain_call (read g)) (group :: groups) w) = Raise e.
Proof.
  simpl. unfold bind.
  destruct (await_plain_call_raises (read group) w) as [e He].
  destruct (await_plain_call (read group) w) as [[[]|e'] w']; simpl in *; [done|eauto].
Qed.

(** The coordinator returns no dictionary but the empty one: once a model is
    resolved, the first awaited group read ends the poll with an exception. *)
Lemma async_update_data_returns_only_empty w snapshot :
  fst (_async_update_data client slave w) = Ok snapshot -> snapshot = ∅.
Proof.
  unfold _async_update_data, bind at 1 2. simpl.
  destruct (call_client_wire client slave ReadHolding 4999 1
              {| device := device w; wire := wire w; data := ∅ |})
    as (result & d & ->).
  destruct result as [device_type_registers|]; simpl; [|by intros [= <-]].
  destruct (getitem device_type_registers 0) as [model_code|]; simpl; [|done].
  unfold bind at 1. simpl.
  destruct (get_model model_code) as [[|r registers]|]; simpl; try (by intros [= <-]).
  unfold bind, await_read_register_group. rewrite group_loop_for_each.
  change (insert_by_address r (sort_by_address registers))
    with (sort_by_address (r :: registers)).
  pose proof (contiguous_groups_concat (sort_by_address (r :: registers)) []) as Hcat.
  destruct (contiguous_groups (sort_by_address (r :: registers)) []) as [|g groups].
  - pose proof (sort_by_address_perm (r :: registers)) as Hp.
    change ([] = sort_by_address (r :: registers)) in Hcat.
    rewrite <- Hcat in Hp. by apply Permutation_nil_cons in Hp.
  - match goal with
    | |- context [for_each ?f (g :: groups) ?w0] =>
        destruct (for_each_await_raises (_read_register_group client slave) g groups w0)
          as [e He];
        destruct (for_each f (g :: groups) w0) as [[[]|e'] w']
    end; simpl in *; done.
Qed.

(** C9.  When the identity read fails, or the code it returns is not in the
    registry, the poll sends the identity request and nothing else, and
    returns the empty dictionary: no register value, no identity code. *)
Theorem identity_failure_ends_cycle w :
  (fst (read_holding_registers client 4999 1 slave (device w)) = None
   \/ exists code rest,
        fst (read_holding_registers client 4999 1 slave (device w)) = Some (code :: rest)
        /\ get_model code = None) ->
  fst (_async_update_data client slave w) = Ok ∅
  /\ wire (snd (_async_update_data client slave w)) = wire w ++ [identity_request slave]
  /\ get_model 0xFFFF = None.
Proof.
  intros H. split; [|split; [|reflexivity]].
  - unfold _async_update_data, bind, new_data, call_client. simpl.
    destruct (read_holding_registers client 4999 1 slave (device w)) as [result d].
    simpl in H. destruct H as [->|(code & rest & -> & Hnone)]; [done|].
    simpl. unfold setitem. simpl. by rewrite Hnone.
  - unfold _async_update_data, bind, new_data, call_client. simpl.
    destruct (read_holding_registers client 4999 1 slave (device w)) as [result d].
    simpl in H. destruct H as [->|(code & rest & -> & Hnone)]; [done|].
    simpl. unfold setitem. simpl. by rewrite Hnone.
Qed.

End cycle.

Lemma identity_failure_ends_cycle_witness :
  (exists code rest,
     fst (read_holding_registers (scripted_client 0xFFFF 7 5007) 4999 1 1 tt)
     = Some (code :: rest)
     /\ get_model code = None)
  /\ fst (_async_update_data (scripted_client 0xFFFF 7 5007) 1 (fresh tt)) = Ok ∅
  /\ wire (snd (_async_update_data (scripted_client 0xFFFF 7 5007) 1 (fresh tt)))
     = [identity_request 1].
Proof.
  assert (exists code rest,
            fst (read_holding_registers (scripted_client 0xFFFF 7 5007) 4999 1 1 tt)
            = Some (code :: rest)
            /\ get_model code = None) as H
    by (exists 0xFFFF, []; split; reflexivity).
  split; [exact H|].
  destruct (identity_failure_ends_cycle (scripted_client 0xFFFF 7 5007) 1 (fresh tt)
              (or_intror H)) as (Hret & Hwire & _).
  split; [exact Hret | exact Hwire].
Defined.

(** C8, at the SH10RT model with the read of the block at 5007 failing: the
    plan has three blocks, but the poll ends with TypeError right after the
    first group read, before the failing block or the third one is read,
    and returns no snapshot. *)
Lemma cycle_stops_after_first_block :
  let run := _async_update_data (scripted_client 0x0E03 7 5007) 1 (fresh tt) in
  map (map address) (plan _create_sh10rt)
  = [[4989; 4999]; [5007]; [5010; 5011; 5012; 5013]]
  /\ fst run = Raise TypeError
  /\ wire (snd run)
     = [ identity_request 1;
         {| req_fn := ReadInput; req_address := 4989; req_count := 11; req_slave := 1 |} ].
Proof. simpl. split; [reflexivity|]. split; vm_compute; reflexivity. Qed.

(** With group reads that could be awaited, the same loop would give the
    partial snapshot: all three blocks requested, the values of the first
    and third stored, nothing under the address of the failed one. *)
Lemma awaitable_reads_give_partial_snapshot :
  let run := update_with_awaitable_reads (scripted_client 0x0E03 7 5007) 1
               _create_sh10rt (fresh tt) in
  map req_address (wire (snd run)) = [4989; 5007; 5010]
  /\ match fst run with
     | Ok snapshot =>
         snapshot !! inr 5007 = None
         /\ snapshot !! inr 4999 = Some (PInt 7)
         /\ snapshot !! inr 5013 = Some (PInt 7)
     | Raise _ => False
     end.
Proof. vm_compute. by repeat split. Qed.

(** ** More on sorting and grouping *)

Section plan_structure.

Implicit Types (reg prev : Register) (run rest current_group : list Register).
Implicit Types (blocks : list (list Register)).

Lemma contiguous_groups_gap_free_run prev run rest current_group :
  last current_group = Some prev -> gap_free_from prev run = true ->
  contiguous_groups (run ++ rest) current_group
  = contiguous_groups rest (current_group ++ run).
Proof.
  revert prev current_group.
  induction run as [|reg run IH]; intros prev cur Hlast Hfree; simpl.
  - by rewrite app_nil_r.
  - simpl in Hfree. apply andb_true_iff in Hfree as [Ha Hfree].
    rewrite Hlast. unfold reg_end in Ha. rewrite Ha.
    rewrite (IH reg (cur ++ [reg])); [|apply last_snoc|done].
    by rewrite <- app_assoc.
Qed.

(** X1.  The sort of line 92 is the stable sort by address: its result holds
    every register of the input exactly once, in ascending address order,
    registers of equal address in their input order; and it is the only
    list that does. *)
Theorem sort_is_the_stable_sort (registers : list Register) :
  sort_by_address registers ≡ₚ registers
  /\ StronglySorted le_address (sort_by_address registers)
  /\ (forall a, filter (fun r => address r = a) (sort_by_address registers)
                = filter (fun r => address r = a) registers)
  /\ (forall sorted,
        StronglySorted le_address sorted ->
        (forall a, filter (fun r => address r = a) sorted
                   = filter (fun r => address r = a) registers) ->
        sorted = sort_by_address registers).
Proof.
  split; [apply sort_by_address_perm|].
  split; [apply sort_by_address_sorted|].
  split; [intros a; apply sort_by_address_stable|].
  intros sorted Hs Hf. by apply stable_sort_unique.
Qed.

(** X2.  Whatever action is taken on a finished group, the loop takes it on
    the blocks of the plan, one after the other, until one raises.  These
    blocks split the address-sorted list into non-empty blocks; inside a
    block every register starts where its predecessor ends, no block
    continues the block before it, and the word counts of the blocks add up
    to the word counts of the registers. *)
Theorem loop_acts_on_blocks_split_at_gaps {D} (flush : list Register -> M D unit)
    (registers : list Register) (w : world D) :
  group_loop flush (sort_by_address registers) [] w = for_each flush (plan registers) w
  /\ concat (plan registers) = sort_by_address registers
  /\ Forall (fun block => block <> []) (plan registers)
  /\ Forall (fun block => gap_free block = true) (plan registers)
  /\ maximal_blocks (plan registers) = true
  /\ plan_words (plan registers) = total_count registers.
Proof.
  split; [apply group_loop_for_each|].
  split; [apply plan_concat|].
  split; [apply contiguous_groups_nonempty|].
  split; [by apply contiguous_groups_gap_free|].
  split; [apply contiguous_groups_maximal | apply plan_words_total].
Qed.

Lemma contiguous_groups_of_maximal_blocks blocks :
  Forall (fun block => block <> []) blocks ->
  Forall (fun block => gap_free block = true) blocks ->
  maximal_blocks blocks = true ->
  contiguous_groups (concat blocks) [] = blocks.
Proof.
  induction blocks as [|block blocks IH]; intros Hne Hfree Hmax; [done|].
  apply Forall_cons in Hne as [Hb Hne]. apply Forall_cons in Hfree as [Hbf Hfree].
  destruct block as [|r block]; [done|]. simpl in Hbf.
  change (concat ((r :: block) :: blocks)) with (r :: (block ++ concat blocks)).
  change (contiguous_groups (r :: block ++ concat blocks) [])
    with (contiguous_groups (block ++ concat blocks) [r]).
  rewrite (contiguous_groups_gap_free_run r block (concat blocks) [r]); [|done..].
  change ([r] ++ block) with (r :: block).
  destruct blocks as [|block2 blocks]; [done|].
  simpl in Hmax. apply andb_true_iff in Hmax as [Hgap Hmax].
  apply negb_true_iff, Z.eqb_neq in Hgap.
  pose proof (Forall_inv Hne) as Hb2.
  destruct block2 as [|r2 block2]; [done|].
  destruct (last (r :: block)) as [prev|] eqn:Hlast; [|by apply last_None in Hlast].
  change (concat ((r2 :: block2) :: blocks)) with (r2 :: (block2 ++ concat blocks)).
  rewrite (contiguous_groups_break prev r2 _ (r :: block)); [|done|].
  - f_equal. by apply IH.
  - unfold run_end, run_start in Hgap. rewrite Hlast in Hgap. simpl in Hgap. done.
Qed.

(** X3.  The groups of the loop are determined by the address-sorted list:
    given any split of that list into non-empty gap-free blocks none of
    which continues the one before, the loop takes its action on exactly
    these blocks, in order, until one raises. *)
Theorem loop_acts_on_the_only_maximal_split {D} (flush : list Register -> M D unit)
    (registers : list Register) blocks (w : world D) :
  concat blocks = sort_by_address registers ->
  Forall (fun block => block <> []) blocks ->
  Forall (fun block => gap_free block = true) blocks ->
  maximal_blocks blocks = true ->
  group_loop flush (sort_by_address registers) [] w = for_each flush blocks w.
Proof.
  intros Hcat Hne Hfree Hmax. rewrite group_loop_for_each, <- Hcat.
  by rewrite contiguous_groups_of_maximal_blocks.
Qed.

Lemma loop_acts_on_the_only_maximal_split_witness :
  (concat scenario_runs_sorted = sort_by_address scenario_registers
   /\ Forall (fun block => block <> []) scenario_runs_sorted
   /\ Forall (fun block => gap_free block = true) scenario_runs_sorted
   /\ maximal_blocks scenario_runs_sorted = true)
  /\ group_loop (_read_register_group (scripted_client 0 7 0) 1)
       (sort_by_address scenario_registers) [] (fresh tt)
     = for_each (_read_register_group (scripted_client 0 7 0) 1)
         scenario_runs_sorted (fresh tt).
Proof.
  assert (concat scenario_runs_sorted = sort_by_address scenario_registers) as H1
    by reflexivity.
  assert (Forall (fun block => block <> []) scenario_runs_sorted) as H2
    by (repeat constructor; discriminate).
  assert (Forall (fun block => gap_free block = true) scenario_runs_sorted) as H3
    by (repeat constructor).
  assert (maximal_blocks scenario_runs_sorted = true) as H4 by reflexivity.
  split; [by repeat split|].
  exact (loop_acts_on_the_only_maximal_split _ scenario_registers scenario_runs_sorted
           _ H1 H2 H3 H4).
Defined.

(** X5.  With pairwise distinct addresses the plan does not depend on the order
    in which the registers are listed. *)
Theorem plan_ignores_input_order (registers1 registers2 : list Register) :
  NoDup (address <$> registers1) ->
  registers1 ≡ₚ registers2 ->
  plan registers1 = plan registers2.
Proof.
  intros Hnd Hperm. unfold plan. by rewrite (sort_by_address_of_perm _ _ Hperm Hnd).
Qed.

Lemma plan_ignores_input_order_witness :
  (NoDup (address <$> scenario_registers)
   /\ scenario_registers ≡ₚ reverse scenario_registers)
  /\ plan scenario_registers = plan (reverse scenario_registers).
Proof.
  assert (NoDup (address <$> scenario_registers)) as H1.
  { apply NoDup_ListNoDup. repeat constructor; simpl; intros H;
      repeat (destruct H as [H|H]; [discriminate H|]); exact H. }
  assert (scenario_registers ≡ₚ reverse scenario_registers) as H2
    by (symmetry; apply reverse_Permutation).
  split; [by split|].
  exact (plan_ignores_input_order scenario_registers (reverse scenario_registers) H1 H2).
Defined.

End plan_structure.

(** ** More on the group read *)

Section group_read_effects.

Context {D : Type} (client : ModbusTcpClient D) (slave : Z).

Implicit Types (words : list Z) (reg first : Register) (registers rest : list Register).
Implicit Types (w : world D) (k : key).

Lemma process_results_data_kept words offset registers w k :
  is_Some (data w !! k) ->
  is_Some (data (snd (process_results words offset registers w)) !! k).
Proof.
  revert offset w. induction registers as [|reg rest IH]; intros offset w Hk; simpl; [done|].
  destruct (decode_register words offset reg) as [[value offset']|]; [|done].
  unfold bind. simpl. apply IH. simpl.
  destruct (decide (inr (address reg) = k)) as [<-|Hne].
  - rewrite lookup_insert_eq. eauto.
  - by rewrite lookup_insert_ne.
Qed.

Lemma process_results_stores_all words offset registers w reg :
  fst (process_results words offset registers w) = Ok tt ->
  reg ∈ registers ->
  is_Some (data (snd (process_results words offset registers w)) !! inr (address reg)).
Proof.
  revert offset w. induction registers as [|reg0 rest IH]; intros offset w Hok Hin.
  { by apply elem_of_nil in Hin. }
  simpl in Hok |- *.
  destruct (decode_register words offset reg0) as [[value offset']|]; [|done].
  unfold bind in Hok |- *. simpl in Hok |- *.
  apply elem_of_cons in Hin as [->|Hin]; [|by apply IH].
  apply process_results_data_kept. simpl. rewrite lookup_insert_eq. eauto.
Qed.

(** The world after the client call of a group read: only the device and
    the list of requests differ. *)
Lemma read_register_group_cases first rest w :
  exists result d,
    let w1 := {| device := d;
                 wire := wire w ++ [group_request slave first (first :: rest)];
                 data := data w |} in
    _read_register_group client slave (first :: rest) w
    = match result with
      | None => (Ok tt, w1)
      | Some words => process_results words 0 (first :: rest) w1
      end.
Proof.
  unfold _read_register_group, bind, group_request.
  destruct (String.eqb (register_type first) "input");
    [destruct (call_client_wire client slave ReadInput (address first)
                 (total_count (first :: rest)) w) as (result & d & ->)
    |destruct (call_client_wire client slave ReadHolding (address first)
                 (total_count (first :: rest)) w) as (result & d & ->)];
    exists result, d; by destruct result.
Qed.

Lemma read_register_group_raise registers w (e : exn) :
  fst (_read_register_group client slave registers w) = Raise e -> e = IndexError.
Proof.
  destruct registers as [|first rest]; [by intros [= <-]|].
  destruct (read_register_group_cases first rest w) as (result & d & ->).
  destruct result as [words|]; [apply process_results_raise | done].
Qed.

(** X6.  A group read sends exactly one request, whatever the answer: for as
    many words as the counts of the group add up to, from the address of
    its first register, to the input registers when the first register's
    type is "input" and to the holding registers for any other type.  On an
    empty group it sends nothing and raises IndexError. *)
Theorem group_read_sends_one_request first rest w :
  wire (snd (_read_register_group client slave (first :: rest) w))
  = wire w ++ [group_request slave first (first :: rest)]
  /\ _read_register_group client slave [] w = (Raise IndexError, w).
Proof.
  split; [|done].
  destruct (read_register_group_cases first rest w) as (result & d & ->).
  destruct result as [words|]; [|done]. by rewrite process_results_wire.
Qed.

(** X7.  A group read whose response is an error raises nothing and stores
    nothing: the dictionary, and with it the state of every sensor, is as
    before. *)
Theorem failed_group_read_stores_nothing first rest w :
  fst (call_client client (req_fn (group_request slave first (first :: rest)))
         (address first) (total_count (first :: rest)) slave w) = Ok None ->
  fst (_read_register_group client slave (first :: rest) w) = Ok tt
  /\ data (snd (_read_register_group client slave (first :: rest) w)) = data w
  /\ forall reg,
       state (data (snd (_read_register_group client slave (first :: rest) w))) reg
       = state (data w) reg.
Proof.
  unfold group_request, _read_register_group, bind. simpl.
  destruct (String.eqb (register_type first) "input");
    [destruct (call_client_wire client slave ReadInput (address first)
                 (total_count (first :: rest)) w) as (result & d & ->)
    |destruct (call_client_wire client slave ReadHolding (address first)
                 (total_count (first :: rest)) w) as (result & d & ->)];
    simpl; intros [= ->]; done.
Qed.

(** X8.  A group read changes no entry but those under the addresses of its
    registers, in particular not the identity code, and it removes no
    entry, whether it succeeds, fails or raises. *)
Theorem group_read_touches_only_its_addresses registers w :
  (forall k, (forall reg, reg ∈ registers -> k <> inr (address reg)) ->
     data (snd (_read_register_group client slave registers w)) !! k = data w !! k)
  /\ (forall k, is_Some (data w !! k) ->
        is_Some (data (snd (_read_register_group client slave registers w)) !! k)).
Proof.
  destruct registers as [|first rest]; [done|].
  destruct (read_register_group_cases first rest w) as (result & d & ->).
  destruct result as [words|]; [|done]. split.
  - intros k Hk. by rewrite process_results_data_other.
  - intros k Hk. by apply process_results_data_kept.
Qed.

(** X9.  When every register of a group keeps the width invariant and the
    device answers the request with as many words as it asked for, the
    group read raises nothing and leaves an entry under the address of
    every register of the group. *)
Theorem well_formed_group_read_stores_every_register first rest w words :
  Forall (fun r => width_ok r = true) (first :: rest) ->
  fst (call_client client (req_fn (group_request slave first (first :: rest)))
         (address first) (total_count (first :: rest)) slave w) = Ok (Some words) ->
  Z.of_nat (length words) = total_count (first :: rest) ->
  fst (_read_register_group client slave (first :: rest) w) = Ok tt
  /\ forall reg, reg ∈ first :: rest ->
       is_Some (data (snd (_read_register_group client slave (first :: rest) w))
                !! inr (address reg)).
Proof.
  intros Hok Hcall Hlen.
  assert (exists w1, _read_register_group client slave (first :: rest) w
                     = process_results words 0 (first :: rest) w1) as [w1 ->].
  { revert Hcall. unfold group_request, _read_register_group, bind. simpl.
    destruct (String.eqb (register_type first) "input");
      [destruct (call_client_wire client slave ReadInput (address first)
                   (total_count (first :: rest)) w) as (result & d & ->)
      |destruct (call_client_wire client slave ReadHolding (address first)
                   (total_count (first :: rest)) w) as (result & d & ->)];
      simpl; intros [= ->]; eauto. }
  assert (fst (process_results words 0 (first :: rest) w1) = Ok tt) as Hrun.
  { apply process_results_ok.
    pose proof (group_reads_in_bounds 0 (first :: rest) Hok) as Hb.
    eapply Forall_impl; [exact Hb|]. intros i Hi. cbv beta in Hi.
    apply getitem_in_bounds. lia. }
  split; [exact Hrun|]. intros reg Hreg. by apply process_results_stores_all.
Qed.

End group_read_effects.

Lemma failed_group_read_stores_nothing_witness :
  fst (call_client (scripted_client 0x0E03 7 5007)
         (req_fn (group_request 1 inverter_temperature [inverter_temperature]))
         (address inverter_temperature) (total_count [inverter_temperature]) 1
         (fresh tt)) = Ok None
  /\ fst (_read_register_group (scripted_client 0x0E03 7 5007) 1
            [inverter_temperature] (fresh tt)) = Ok tt.
Proof.
  assert (fst (call_client (scripted_client 0x0E03 7 5007)
                 (req_fn (group_request 1 inverter_temperature [inverter_temperature]))
                 (address inverter_temperature) (total_count [inverter_temperature]) 1
                 (fresh tt)) = Ok None) as H by reflexivity.
  split; [exact H|].
  exact (proj1 (failed_group_read_stores_nothing (scripted_client 0x0E03 7 5007) 1
                  inverter_temperature [] (fresh tt) H)).
Defined.

Lemma well_formed_group_read_stores_every_register_witness :
  (Forall (fun r => width_ok r = true) mppt_block
   /\ Z.of_nat (length (replicate 4 7)) = total_count mppt_block)
  /\ fst (_read_register_group (scripted_client 0x0E03 7 5007) 1 mppt_block (fresh tt))
     = Ok tt.
Proof.
  assert (Forall (fun r => width_ok r = true) mppt_block) as H1 by (repeat constructor).
  assert (Z.of_nat (length (replicate 4 7)) = total_count mppt_block) as H2
    by reflexivity.
  split; [by split|].
  exact (proj1 (well_formed_group_read_stores_every_register
                  (scripted_client 0x0E03 7 5007) 1
                  (measuring (NFloat f0_1) "V" "voltage"
                     (Register_ 5010 "MPPT1 Voltage" "uint16"))
                  (drop 4 _create_sh10rt) (fresh tt) (replicate 4 7)
                  H1 eq_refl H2)).
Defined.

(** ** More on decoding *)

Section decoder_facts.

Implicit Types (words : list Z) (reg : Register) (registers : list Register).

(** X10.  Decoding a block raises nothing exactly when every subscript it
    evaluates is in the range of the response, and what it raises otherwise
    is always IndexError. *)
Theorem decoding_raises_exactly_out_of_range {D} words offset registers (w : world D) :
  (fst (process_results words offset registers w) = Ok tt
   <-> Forall (fun i => is_Some (getitem words i)) (group_reads offset registers))
  /\ (forall e, fst (process_results words offset registers w) = Raise e ->
        e = IndexError)
  /\ (forall i, is_Some (getitem words i)
        <-> - Z.of_nat (length words) <= i < Z.of_nat (length words)).
Proof.
  split; [apply process_results_ok|]. split; [apply process_results_raise|].
  intros i. unfold getitem.
  destruct (Z.leb_spec 0 i).
  - rewrite lookup_lt_is_Some. lia.
  - destruct (Z.leb_spec (- Z.of_nat (length words)) i).
    + rewrite lookup_lt_is_Some. lia.
    + split; [by intros [? ?] | lia].
Qed.

End decoder_facts.

Lemma decode_in_bounds_witness :
  (Forall (fun r => width_ok r = true) mppt_block
   /\ Z.of_nat (length (replicate 4 7)) = total_count mppt_block)
  /\ Forall (fun i => 0 <= i < 4) (group_reads 0 mppt_block).
Proof.
  assert (Forall (fun r => width_ok r = true) mppt_block) as H1 by (repeat constructor).
  assert (Z.of_nat (length (replicate 4 7)) = total_count mppt_block) as H2
    by reflexivity.
  split; [by split|].
  exact (proj1 (decode_in_bounds (replicate 4 7) mppt_block (fresh tt) H1 H2)).
Defined.

Section numeric_decoding.

Implicit Types (words : list Z) (reg : Register).

(** X12.  For a 16-bit word, uint16 decodes to the word itself and int16 to its
    two's-complement reading: a value from -32768 to 32767 that is
    congruent to the word modulo 65536 and negative exactly from 0x8000 on.
    Either moves the offset by one. *)
Theorem sixteen_bit_decoding words offset raw reg :
  getitem words offset = Some raw ->
  is_word raw ->
  (data_type reg = "uint16"%string ->
     decode_register words offset reg = Some (PInt raw, offset + 1))
  /\ (data_type reg = "int16"%string ->
        exists value,
          decode_register words offset reg = Some (PInt value, offset + 1)
          /\ -32768 <= value <= 32767
          /\ value mod 0x10000 = raw
          /\ (value < 0 <-> 0x8000 <= raw)).
Proof.
  intros Hraw Hword. unfold is_word in Hword. unfold decode_register.
  split; intros ->; simpl; rewrite Hraw; [done|].
  eexists. split; [reflexivity|]. rewrite Z.gtb_ltb.
  destruct (Z.ltb_spec 32767 raw).
  - split; [lia|]. split; [|lia].
    rewrite <- (Z.mod_add _ 1) by lia.
    replace (raw - 65536 + 1 * 65536) with raw by lia. apply Z.mod_small. lia.
  - split; [lia|]. split; [apply Z.mod_small; lia | lia].
Qed.

Lemma sixteen_bit_decoding_witness :
  (getitem [0x8000] 0 = Some 0x8000 /\ is_word 0x8000)
  /\ exists value,
       decode_register [0x8000] 0 (Register_ 0 "N" "int16") = Some (PInt value, 0 + 1)
       /\ -32768 <= value <= 32767
       /\ value mod 0x10000 = 0x8000
       /\ (value < 0 <-> 0x8000 <= 0x8000).
Proof.
  assert (is_word 0x8000) as Hw by (unfold is_word; lia).
  split; [by split|].
  exact (proj2 (sixteen_bit_decoding [0x8000] 0 0x8000 (Register_ 0 "N" "int16")
                  eq_refl Hw) eq_refl).
Defined.

(** X13.  For two 16-bit words, uint32 decodes to high * 65536 + low, a value
    below 2^32, and int32 to the two's-complement reading of that value:
    from -2^31 to 2^31 - 1 and congruent to it modulo 2^32.  Either moves
    the offset by two. *)
Theorem thirty_two_bit_decoding words offset high low reg :
  getitem words offset = Some high ->
  getitem words (offset + 1) = Some low ->
  is_word high -> is_word low ->
  (data_type reg = "uint32"%string ->
     decode_register words offset reg = Some (PInt (high * 0x10000 + low), offset + 2)
     /\ 0 <= high * 0x10000 + low < 0x100000000)
  /\ (data_type reg = "int32"%string ->
        exists value,
          decode_register words offset reg = Some (PInt value, offset + 2)
          /\ - 0x80000000 <= value <= 0x7FFFFFFF
          /\ value mod 0x100000000 = high * 0x10000 + low).
Proof.
  intros Hhigh Hlow Hh Hl.
  pose proof (uint32_of_words_value high low Hh Hl) as Hval.
  unfold uint32_of_words in Hval. unfold is_word in Hh, Hl. unfold decode_register.
  split; intros ->; simpl; rewrite Hhigh, Hlow, Hval.
  - split; [done | lia].
  - eexists. split; [reflexivity|]. rewrite Z.gtb_ltb.
    destruct (Z.ltb_spec 2147483647 (high * 65536 + low)).
    + split; [lia|]. rewrite <- (Z.mod_add _ 1) by lia.
      replace (high * 65536 + low - 4294967296 + 1 * 4294967296)
        with (high * 65536 + low) by lia.
      apply Z.mod_small. lia.
    + split; [lia|]. apply Z.mod_small. lia.
Qed.

Lemma thirty_two_bit_decoding_witness :
  (getitem [0xFFFF; 0xFFFE] 0 = Some 0xFFFF
   /\ getitem [0xFFFF; 0xFFFE] (0 + 1) = Some 0xFFFE
   /\ is_word 0xFFFF /\ is_word 0xFFFE)
  /\ decode_register [0xFFFF; 0xFFFE] 0 (Register_ 0 "N" "uint32")
     = Some (PInt (0xFFFF * 0x10000 + 0xFFFE), 0 + 2).
Proof.
  assert (is_word 0xFFFF) as Hh by (unfold is_word; lia).
  assert (is_word 0xFFFE) as Hl by (unfold is_word; lia).
  split; [by repeat split|].
  exact (proj1 (proj1 (thirty_two_bit_decoding [0xFFFF; 0xFFFE] 0 0xFFFF 0xFFFE
                         (Register_ 0 "N" "uint32") eq_refl eq_refl Hh Hl) eq_refl)).
Defined.

(** X14.  Decoding inverts the two's-complement, high-word-first encoding: every
    value of the int16 range comes back from its word, every value of the
    int32 range from its two words, and so do the unsigned values. *)
Theorem integers_round_trip reg :
  (forall value, -32768 <= value <= 32767 -> data_type reg = "int16"%string ->
     decode_register [word_of_int16 value] 0 reg = Some (PInt value, 1))
  /\ (forall value, 0 <= value <= 65535 -> data_type reg = "uint16"%string ->
        decode_register [word_of_int16 value] 0 reg = Some (PInt value, 1))
  /\ (forall value, - 0x80000000 <= value <= 0x7FFFFFFF ->
        data_type reg = "int32"%string ->
        decode_register (words_of_int32 value) 0 reg = Some (PInt value, 2))
  /\ (forall value, 0 <= value <= 0xFFFFFFFF -> data_type reg = "uint32"%string ->
        decode_register (words_of_int32 value) 0 reg = Some (PInt value, 2)).
Proof.
  assert (forall value, is_word ((value mod 4294967296) / 65536)
                        /\ is_word (value mod 65536)
                        /\ (value mod 4294967296) / 65536 * 65536 + value mod 65536
                           = value mod 4294967296) as Hsplit.
  { intros value. unfold is_word. Z.div_mod_to_equations. lia. }
  unfold decode_register, word_of_int16, words_of_int32.
  split; [|split; [|split]]; intros value Hrange ->; simpl.
  - rewrite Z.gtb_ltb. destruct (Z.ltb_spec 32767 (value mod 65536)); same_int value.
  - same_int value.
  - destruct (Hsplit value) as (Hh & Hl & Hsum).
    pose proof (uint32_of_words_value _ _ Hh Hl) as Hval.
    unfold uint32_of_words in Hval. rewrite Hval, Hsum, Z.gtb_ltb.
    destruct (Z.ltb_spec 2147483647 (value mod 4294967296)); same_int value.
  - destruct (Hsplit value) as (Hh & Hl & Hsum).
    pose proof (uint32_of_words_value _ _ Hh Hl) as Hval.
    unfold uint32_of_words in Hval. rewrite Hval, Hsum. same_int value.
Qed.

End numeric_decoding.

(** ** Strings *)

Section string_decoding.

Implicit Types (text s : list ascii) (c : ascii) (words : list Z) (reg : Register).

Lemma lstrip_suffix s : exists pre, s = pre ++ lstrip s.
Proof.
  induction s as [|c s [pre IH]]; [by exists []|]. simpl.
  destruct (isspace c); [|by exists []].
  exists (c :: pre). simpl. by rewrite <- IH.
Qed.

Lemma lstrip_head s c : head (lstrip s) = Some c -> isspace c = false.
Proof.
  induction s as [|c0 s IH]; simpl; [done|].
  destruct (isspace c0) eqn:E; [exact IH|]. simpl. by intros [= <-].
Qed.

Lemma rstrip_prefix s : exists post, s = rstrip s ++ post.
Proof.
  unfold rstrip. destruct (lstrip_suffix (rev s)) as [pre Hpre].
  exists (rev pre). rewrite <- rev_app_distr, <- Hpre. by rewrite rev_involutive.
Qed.

Lemma last_rev s : last (rev s) = head s.
Proof. destruct s as [|c s]; [done|]. simpl. apply last_snoc. Qed.

Lemma rstrip_last s c : last (rstrip s) = Some c -> isspace c = false.
Proof. unfold rstrip. rewrite last_rev. apply lstrip_head. Qed.

Lemma strip_head s c : head (strip s) = Some c -> isspace c = false.
Proof.
  unfold strip. destruct (rstrip_prefix (lstrip s)) as [post Hpost].
  destruct (rstrip (lstrip s)) as [|c0 t] eqn:E; [done|]. simpl. intros [= ->].
  apply (lstrip_head s). by rewrite Hpost.
Qed.

Lemma strip_elem_of s c : c ∈ strip s -> c ∈ s.
Proof.
  unfold strip. intros Hc.
  destruct (rstrip_prefix (lstrip s)) as [post Hpost].
  destruct (lstrip_suffix s) as [pre Hpre].
  rewrite Hpre, Hpost. set_solver.
Qed.

Lemma strip_length s : (length (strip s) <= length s)%nat.
Proof.
  unfold strip.
  destruct (rstrip_prefix (lstrip s)) as [post Hpost].
  destruct (lstrip_suffix s) as [pre Hpre].
  rewrite Hpre at 2. rewrite Hpost at 2. rewrite !length_app. lia.
Qed.

Lemma string_chars_length words offset indices chars out :
  string_chars words offset indices chars = Some out ->
  length out = (length chars + 2 * length indices)%nat.
Proof.
  revert chars. induction indices as [|i indices IH]; intros chars; simpl.
  - intros [= <-]. lia.
  - destruct (getitem words (offset + i)); [|done].
    intros H. apply IH in H. rewrite H, length_app. simpl. lia.
Qed.

(** X15.  A decoded string holds no NUL character, neither starts nor ends with
    whitespace, and has at most two characters per word of the register;
    the offset has moved by the register's count. *)
Theorem decoded_string_is_clean words offset reg (s : string) offset' :
  data_type reg = "string"%string ->
  decode_register words offset reg = Some (PStr s, offset') ->
  (zero ∉ list_ascii_of_string s)
  /\ (forall c, head (list_ascii_of_string s) = Some c -> isspace c = false)
  /\ (forall c, last (list_ascii_of_string s) = Some c -> isspace c = false)
  /\ (length (list_ascii_of_string s) <= 2 * Z.to_nat (count reg))%nat
  /\ offset' = offset + count reg.
Proof.
  intros Htype. unfold decode_register. rewrite Htype. simpl.
  destruct (string_chars words offset (range (count reg)) []) as [chars|] eqn:E; [|done].
  intros [= <- <-]. rewrite list_ascii_of_string_of_list_ascii.
  split.
  { intros Hin. apply strip_elem_of in Hin. unfold remove_nul in Hin.
    apply list_elem_of_filter in Hin as [Hne _]. done. }
  split; [apply strip_head|]. split; [apply rstrip_last|]. split; [|done].
  apply string_chars_length in E. unfold range in E.
  rewrite length_fmap, length_seq in E. simpl in E.
  pose proof (strip_length (remove_nul chars)) as H1.
  pose proof (length_filter (fun c => c <> zero) chars) as H2.
  unfold remove_nul in *. lia.
Qed.

Lemma decoded_string_is_clean_witness :
  (data_type two_word_string = "string"%string
   /\ decode_register [0x2041; 0x0020] 0 two_word_string = Some (PStr "A", 2))
  /\ (length (list_ascii_of_string "A") <= 2 * Z.to_nat (count two_word_string))%nat.
Proof.
  assert (decode_register [0x2041; 0x0020] 0 two_word_string = Some (PStr "A", 2)) as H
    by reflexivity.
  split; [by split|].
  exact (proj1 (proj2 (proj2 (proj2
           (decoded_string_is_clean [0x2041; 0x0020] 0 two_word_string "A" 2
              eq_refl H))))).
Defined.

Lemma ord_bound c : 0 <= ord c < 256.
Proof.
  unfold ord. pose proof (N_ascii_bounded c) as H. lia.
Qed.

Lemma chr_ord c : chr (ord c) = c.
Proof. unfold chr, ord. rewrite N2Z.id. apply ascii_N_embedding. Qed.

Lemma word_chars_pair c1 c2 : word_chars (ord c1 * 256 + ord c2) = [c1; c2].
Proof.
  pose proof (ord_bound c1). pose proof (ord_bound c2).
  unfold word_chars. change 255 with (Z.ones 8).
  rewrite Z.land_ones, Z.shiftr_div_pow2 by lia. change (2 ^ 8) with 256.
  replace ((ord c1 * 256 + ord c2) / 256) with (ord c1)
    by (Z.div_mod_to_equations; lia).
  replace ((ord c1 * 256 + ord c2) mod 256) with (ord c2)
    by (Z.div_mod_to_equations; lia).
  by rewrite !chr_ord.
Qed.

Lemma pack_chars_facts text :
  (Forall is_word (pack_chars text)
   /\ exists pad, pack_chars text ≫= word_chars = text ++ replicate pad zero)
  /\ forall c,
       Forall is_word (pack_chars (c :: text))
       /\ exists pad, pack_chars (c :: text) ≫= word_chars = c :: text ++ replicate pad zero.
Proof.
  induction text as [|c2 text [[IHw [pad IHc]] IH2]].
  - split; [split; [constructor | by exists 0%nat]|].
    intros c. pose proof (ord_bound c). split.
    + repeat constructor; unfold is_word; lia.
    + exists 1%nat. change (pack_chars [c]) with [ord c * 256].
      replace (ord c * 256) with (ord c * 256 + ord zero)
        by (change (ord zero) with 0; lia).
      by rewrite bind_cons, word_chars_pair.
  - split; [apply IH2|]. intros c1.
    pose proof (ord_bound c1). pose proof (ord_bound c2). split.
    + simpl. constructor; [unfold is_word; lia | exact IHw].
    + exists pad.
      change (pack_chars (c1 :: c2 :: text))
        with ((ord c1 * 256 + ord c2) :: pack_chars text).
      rewrite bind_cons, word_chars_pair, IHc. done.
Qed.

Lemma zero_words_chars (k : nat) :
  replicate k 0 ≫= word_chars = replicate (2 * k) zero.
Proof.
  induction k as [|k IH]; [done|].
  rewrite replicate_S, bind_cons, IH.
  replace (2 * S k)%nat with (S (S (2 * k))) by lia. done.
Qed.

Lemma remove_nul_padded text (pad : nat) :
  zero ∉ text -> remove_nul (text ++ replicate pad zero) = text.
Proof.
  intros Hz. unfold remove_nul. rewrite filter_app.
  assert (filter (fun c => c <> zero) (replicate pad zero) = []) as ->.
  { induction pad as [|pad IH]; [done|]. simpl. by rewrite filter_cons_False by (by intros ?). }
  rewrite app_nil_r.
  induction text as [|c text IH]; [done|].
  apply not_elem_of_cons in Hz as [Hc Hz].
  rewrite filter_cons_True by done. by rewrite IH.
Qed.

(** X16.  A text without NUL characters that neither starts nor ends with
    whitespace, packed two characters per word (high byte first) and padded
    with NUL up to the register's count, decodes to the text itself. *)
Theorem text_round_trip (n : nat) text reg :
  data_type reg = "string"%string ->
  count reg = Z.of_nat n ->
  (length (pack_chars text) <= n)%nat ->
  zero ∉ text ->
  strip text = text ->
  decode_register (words_of_text n text) 0 reg
  = Some (PStr (string_of_list_ascii text), Z.of_nat n).
Proof.
  intros Htype Hcount Hlen Hz Hstrip.
  destruct (pack_chars_facts text) as [[Hw [pad Hchars]] _].
  assert (Forall is_word (words_of_text n text)) as Hwords.
  { unfold words_of_text. apply Forall_app. split; [done|].
    apply Forall_replicate. unfold is_word. lia. }
  assert (length (words_of_text n text) = n) as Hn.
  { unfold words_of_text. rewrite length_app, length_replicate. lia. }
  pose proof (string_chars_words [] [] (words_of_text n text) [] [] Hwords) as Hrun.
  simpl in Hrun. rewrite app_nil_r, Hn in Hrun. change (Z.of_nat 0) with 0 in Hrun.
  unfold decode_register. rewrite Htype. simpl.
  unfold range. rewrite Hcount, Nat2Z.id, Hrun.
  unfold words_of_text. rewrite bind_app, Hchars, zero_words_chars, <- app_assoc.
  rewrite <- replicate_add, remove_nul_padded, Hstrip by done. done.
Qed.

Lemma text_round_trip_witness :
  (data_type three_word_string = "string"%string
   /\ count three_word_string = Z.of_nat 3
   /\ (length (pack_chars model_text) <= 3)%nat
   /\ (zero ∉ model_text)
   /\ strip model_text = model_text)
  /\ decode_register (words_of_text 3 model_text) 0 three_word_string
     = Some (PStr "SH 10", 3).
Proof.
  assert (length (pack_chars model_text) <= 3)%nat as H1 by (simpl; lia).
  assert (zero ∉ model_text) as H2.
  { intros H. apply list_elem_of_In in H. simpl in H.
    repeat (destruct H as [H|H]; [discriminate H|]). exact H. }
  assert (strip model_text = model_text) as H3 by reflexivity.
  split; [by repeat split|].
  exact (text_round_trip 3 model_text three_word_string eq_refl eq_refl H1 H2 H3).
Defined.

(** X17.  A register whose data type is none of the five known ones is decoded
    without reading the response: its value is None and the offset skips
    its count; the sensor state of such a register is None whatever its
    scale. *)
Theorem unknown_data_type_gives_none words (offset : Z) reg
    (coordinator_data : gmap key pyval) :
  known_data_type (data_type reg) = false ->
  decode_register words offset reg = Some (PNone, offset + count reg)
  /\ register_reads offset reg = []
  /\ (coordinator_data !! inr (address reg) = Some PNone ->
      state coordinator_data reg = Ok PNone).
Proof.
  unfold known_data_type. rewrite !orb_false_iff.
  intros [[[[H1 H2] H3] H4] H5].
  unfold decode_register, register_reads, state. rewrite H1, H2, H3, H4, H5.
  split; [done|]. split; [done|]. by intros ->.
Qed.

Lemma unknown_data_type_gives_none_witness :
  known_data_type (data_type float_register) = false
  /\ decode_register [1; 2] 0 float_register = Some (PNone, 0 + count float_register).
Proof.
  assert (known_data_type (data_type float_register) = false) as H by reflexivity.
  split; [exact H|].
  exact (proj1 (unknown_data_type_gives_none [1; 2] 0 float_register ∅ H)).
Defined.

End string_decoding.

(** ** The sensor state *)

Section sensor_state.

Implicit Types (coordinator_data : gmap key pyval) (reg : Register).

Lemma state_unscaled coordinator_data reg :
  ne_one (scale reg) = false ->
  state coordinator_data reg
  = Ok (default PNone (coordinator_data !! inr (address reg))).
Proof. unfold state. intros ->. by rewrite andb_false_r. Qed.

(** X18.  The state of a sensor raises TypeError exactly when the stored value is
    a string and the scale is a float other than 1.0; it never raises
    IndexError; for an address without entry it is None; and with a scale
    of one it is the stored value itself. *)
Theorem state_errors coordinator_data reg :
  (state coordinator_data reg = Raise TypeError
   <-> exists s f,
         coordinator_data !! inr (address reg) = Some (PStr s)
         /\ scale reg = NFloat f /\ (f =? 1)%float = false)
  /\ state coordinator_data reg <> Raise IndexError
  /\ (coordinator_data !! inr (address reg) = None ->
      state coordinator_data reg = Ok PNone)
  /\ (ne_one (scale reg) = false ->
      state coordinator_data reg
      = Ok (default PNone (coordinator_data !! inr (address reg)))).
Proof.
  split; [|split; [|split; [|apply state_unscaled]]].
  - unfold state, mul, float_of_int, ne_one.
    destruct (coordinator_data !! inr (address reg)) as [[|z|s|g]|];
      destruct (scale reg) as [k|f]; simpl;
      repeat match goal with
             | |- context [negb ?b] => destruct b eqn:?; simpl
             | |- context [if ?b then _ else _] => destruct b eqn:?; simpl
             end;
      (split; [intros H; try discriminate H; eauto
              |intros (s' & f' & H1 & H2 & H3); try discriminate H1;
               try discriminate H2; simplify_eq; congruence]).
  - unfold state, mul, float_of_int.
    destruct (coordinator_data !! inr (address reg)) as [[|z|s|g]|];
      destruct (scale reg) as [k|f]; simpl;
      repeat match goal with
             | |- context [if ?b then _ else _] => destruct b; simpl
             end; discriminate.
  - unfold state. by intros ->.
Qed.

Lemma getitem_elem_of (l : list Z) (i x : Z) : getitem l i = Some x -> x ∈ l.
Proof.
  unfold getitem. destruct (0 <=? i); [apply list_elem_of_lookup_2|].
  destruct (- Z.of_nat (length l) <=? i); [apply list_elem_of_lookup_2 | done].
Qed.

Lemma elem_of_zrange (n : nat) (z x : Z) :
  z <= x < z + Z.of_nat n -> x ∈ zrange n z.
Proof.
  revert z. induction n as [|n IH]; intros z Hx; [lia|]. simpl.
  destruct (Z.eq_dec x z) as [->|Hne]; [by left|]. right. apply IH. lia.
Qed.

Lemma tenth_defined_words : forallb tenth_defined (zrange (Z.to_nat 98304) (-32768)) = true.
Proof. vm_compute. reflexivity. Qed.

Lemma tenth_defined_16 (z : Z) : -32768 <= z <= 65535 -> tenth_defined z = true.
Proof.
  intros Hz. pose proof tenth_defined_words as H. rewrite forallb_forall in H.
  apply H, list_elem_of_In, elem_of_zrange. lia.
Qed.

Lemma state_of_tenths coordinator_data reg (z : Z) :
  coordinator_data !! inr (address reg) = Some (PInt z) ->
  scale reg = NFloat f0_1 ->
  -32768 <= z <= 65535 ->
  exists result, state coordinator_data reg = Ok result.
Proof.
  intros Hdata Hscale Hz. unfold state. rewrite Hdata, Hscale.
  assert (ne_one (NFloat f0_1) = true) as -> by reflexivity.
  change (negb (is_none (default PNone (Some (PInt z)))) && true) with true.
  cbv iota. change (default PNone (Some (PInt z))) with (PInt z).
  pose proof (tenth_defined_16 z Hz) as Hdef. unfold tenth_defined in Hdef.
  destruct (mul (PInt z) (NFloat f0_1)) as [result|e]; [eauto | discriminate Hdef].
Qed.

(** X19.  For every register of every model of the registry, the state of its
    sensor raises nothing on a value decoded from 16-bit words: the
    conversion of a decoded integer to a float never overflows, and the
    string register has scale 1.0. *)
Theorem registry_state_is_defined (model_code : Z) (registers : list Register) reg
    (words : list Z) (offset : Z) (value : pyval) (offset' : Z) coordinator_data :
  get_model model_code = Some registers ->
  reg ∈ registers ->
  Forall is_word words ->
  decode_register words offset reg = Some (value, offset') ->
  coordinator_data !! inr (address reg) = Some value ->
  exists result, state coordinator_data reg = Ok result.
Proof.
  intros Hmodel Hreg Hwords Hdec Hdata.
  assert (forall raw, getitem words offset = Some raw -> 0 <= raw <= 65535) as Hraw.
  { intros raw Hg. apply getitem_elem_of in Hg. rewrite Forall_forall in Hwords.
    specialize (Hwords raw Hg). unfold is_word in Hwords. lia. }
  destruct (ne_one (scale reg)) eqn:Hscale; [|rewrite state_unscaled by done; eauto].
  destruct (get_model_Some _ _ Hmodel) as [[_ ->]|[_ ->]];
    repeat (apply elem_of_cons in Hreg as [->|Hreg]);
    try (by apply elem_of_nil in Hreg); try discriminate Hscale;
    unfold decode_register in Hdec; simpl in Hdec;
    destruct (getitem words offset) as [raw|] eqn:Hg; try discriminate Hdec;
    injection Hdec as <- <-; specialize (Hraw raw eq_refl);
    (apply (state_of_tenths _ _ _ Hdata); [reflexivity|]);
    rewrite ?Z.gtb_ltb; try destruct (Z.ltb_spec 32767 raw); lia.
Qed.

Lemma registry_state_is_defined_witness :
  (get_model 0x0E03 = Some _create_sh10rt
   /\ inverter_temperature ∈ _create_sh10rt
   /\ Forall is_word [0xFF38]
   /\ decode_register [0xFF38] 0 inverter_temperature = Some (PInt (-200), 1)
   /\ (<[inr 5007 := PInt (-200)]> (∅ : gmap key pyval))
        !! inr (address inverter_temperature) = Some (PInt (-200)))
  /\ exists result,
       state (<[inr 5007 := PInt (-200)]> ∅) inverter_temperature = Ok result.
Proof.
  assert (inverter_temperature ∈ _create_sh10rt) as H1 by (right; right; left).
  assert (Forall is_word [0xFF38]) as H2 by (repeat constructor; unfold is_word; lia).
  assert ((<[inr 5007 := PInt (-200)]> (∅ : gmap key pyval))
            !! inr (address inverter_temperature) = Some (PInt (-200))) as H3
    by reflexivity.
  split; [by repeat split|].
  exact (registry_state_is_defined 0x0E03 _create_sh10rt inverter_temperature
           [0xFF38] 0 (PInt (-200)) 1 _ eq_refl H1 H2 eq_refl H3).
Defined.

End sensor_state.

(** ** More on the registry *)

Section registry_lists.

Lemma registry_lists_are_well_formed_aux (model_code : Z) (registers : list Register) :
  get_model model_code = Some registers ->
  StronglySorted lt_address registers /\ has_overlap registers = false.
Proof.
  intros Hmodel.
  destruct (get_model_Some _ _ Hmodel) as [[_ ->]|[_ ->]];
    (split; [repeat constructor | reflexivity]).
Qed.

(** X20.  The registry knows the codes 0x0E03 and 0x0E26 and no other.  Every
    list it returns starts with the three common registers, is in strictly
    ascending address order, so that its addresses are pairwise distinct
    and the coordinator's sort leaves it as it is, holds no two registers
    that claim a common word, and holds input registers only. *)
Theorem registry_lists_are_well_formed (model_code : Z) :
  (get_model model_code = None <-> model_code <> 0x0E03 /\ model_code <> 0x0E26)
  /\ forall registers,
       get_model model_code = Some registers ->
       (exists specific, registers = _create_base_registers ++ specific)
       /\ StronglySorted lt_address registers
       /\ NoDup (address <$> registers)
       /\ sort_by_address registers = registers
       /\ has_overlap registers = false
       /\ Forall (fun r => register_type r = "input"%string) registers.
Proof.
  split; [apply get_model_None|].
  intros registers Hmodel.
  destruct (registry_lists_are_well_formed_aux _ _ Hmodel) as [Hsorted Hover].
  split.
  { destruct (get_model_Some _ _ Hmodel) as [[_ ->]|[_ ->]]; eexists; reflexivity. }
  split; [exact Hsorted|].
  split; [by apply lt_address_NoDup|].
  split; [by apply sort_by_address_of_sorted, lt_address_le_address|].
  split; [exact Hover | by eapply get_model_input].
Qed.

End registry_lists.

(** ** More on the poll *)

Section poll_outcomes.

Context {D : Type} (client : ModbusTcpClient D) (slave : Z).

Implicit Types (w : world D).

Lemma awaited_group_read first rest w :
  exists e,
    await_plain_call (_read_register_group client slave (first :: rest)) w
    = (Raise e, snd (_read_register_group client slave (first :: rest) w))
    /\ (e = TypeError \/ e = IndexError).
Proof.
  unfold await_plain_call, bind, raise.
  destruct (_read_register_group client slave (first :: rest) w) as [[[]|e] w'] eqn:E.
  - exists TypeError. split; [done | by left].
  - exists e. split; [done|]. right.
    apply (read_register_group_raise client slave (first :: rest) w). by rewrite E.
Qed.

Lemma for_each_awaited first others (blocks : list (list Register)) w :
  exists e,
    for_each (fun g => await_plain_call (_read_register_group client slave g))
      ((first :: others) :: blocks) w
    = (Raise e, snd (_read_register_group client slave (first :: others) w))
    /\ (e = TypeError \/ e = IndexError).
Proof.
  destruct (awaited_group_read first others w) as (e & He & Hor).
  exists e. split; [|done]. cbn [for_each]. unfold bind at 1. by rewrite He.
Qed.

(** What a poll does once the identity read gave a code of the registry. *)
Lemma poll_of_model (model_code : Z) (tail : list Z) (registers : list Register) w :
  fst (read_holding_registers client 4999 1 slave (device w)) = Some (model_code :: tail) ->
  get_model model_code = Some registers ->
  exists e first others blocks w',
    plan registers = (first :: others) :: blocks
    /\ _async_update_data client slave w = (Raise e, w')
    /\ (e = TypeError \/ e = IndexError)
    /\ wire w' = wire w ++ [identity_request slave;
                            group_request slave first (first :: others)].
Proof.
  intros Hread Hmodel.
  assert (exists r registers', registers = r :: registers') as (r & registers' & ->).
  { destruct (get_model_Some _ _ Hmodel) as [[_ ->]|[_ ->]]; eexists _, _; reflexivity. }
  pose proof (contiguous_groups_concat (sort_by_address (r :: registers')) []) as Hcat.
  pose proof (contiguous_groups_nonempty (sort_by_address (r :: registers')) []) as Hne.
  fold (plan (r :: registers')) in Hcat, Hne.
  destruct (plan (r :: registers')) as [|block blocks] eqn:Hplan.
  { pose proof (sort_by_address_perm (r :: registers')) as Hp.
    change ([] = sort_by_address (r :: registers')) in Hcat.
    rewrite <- Hcat in Hp. by apply Permutation_nil_cons in Hp. }
  apply Forall_inv in Hne. destruct block as [|first others]; [done|].
  unfold _async_update_data, bind at 1 2, new_data, call_client. simpl.
  destruct (read_holding_registers client 4999 1 slave (device w)) as [result d].
  simpl in Hread. subst result. simpl.
  unfold bind at 1, setitem. simpl. rewrite Hmodel. cbv iota.
  unfold bind at 1, await_read_register_group. rewrite group_loop_for_each.
  fold (plan (r :: registers')). rewrite Hplan.
  match goal with
  | |- context [for_each _ _ ?w0] =>
      destruct (for_each_awaited first others blocks w0) as (e & -> & He);
      exists e, first, others, blocks,
        (snd (_read_register_group client slave (first :: others) w0))
  end.
  split; [done|]. split; [done|]. split; [done|].
  rewrite read_register_group_wire. simpl. by rewrite <- app_assoc.
Qed.

(** X21.  Whatever the device answers, a poll returns no register value: it
    returns the empty dictionary or raises TypeError or IndexError.  It
    starts with the identity read, sends at most one request more, and
    every request carries the configured unit id. *)
Theorem poll_never_returns_values w :
  (fst (_async_update_data client slave w) = Ok ∅
   \/ fst (_async_update_data client slave w) = Raise TypeError
   \/ fst (_async_update_data client slave w) = Raise IndexError)
  /\ exists more,
       wire (snd (_async_update_data client slave w))
       = wire w ++ identity_request slave :: more
       /\ (length more <= 1)%nat
       /\ Forall (fun q => req_slave q = slave) more.
Proof.
  destruct (fst (read_holding_registers client 4999 1 slave (device w)))
    as [[|model_code tail]|] eqn:Hread.
  - unfold _async_update_data, bind, new_data, call_client. simpl.
    destruct (read_holding_registers client 4999 1 slave (device w)) as [result d].
    simpl in Hread. subst result. simpl.
    split; [by right; right|]. exists []. split; [done|]. split; [simpl; lia | constructor].
  - destruct (get_model model_code) as [registers|] eqn:Hmodel.
    + destruct (poll_of_model model_code tail registers w Hread Hmodel)
        as (e & first & others & blocks & w' & _ & -> & He & Hwire).
      simpl. split; [destruct He as [-> | ->]; auto|].
      eexists. split; [exact Hwire|]. split; [simpl; lia|]. by repeat constructor.
    + unfold _async_update_data, bind, new_data, call_client. simpl.
      destruct (read_holding_registers client 4999 1 slave (device w)) as [result d].
      simpl in Hread. subst result. simpl. unfold setitem. simpl. rewrite Hmodel.
      split; [by left|]. exists []. split; [done|]. split; [simpl; lia | constructor].
  - unfold _async_update_data, bind, new_data, call_client. simpl.
    destruct (read_holding_registers client 4999 1 slave (device w)) as [result d].
    simpl in Hread. subst result. simpl.
    split; [by left|]. exists []. split; [done|]. split; [simpl; lia | constructor].
Qed.

(** X22.  When the identity read gives a code of the registry, the poll reads the
    first block of the model's plan and then ends with an exception:
    TypeError from the await when the block was read or its read failed,
    IndexError when decoding it ran out of the response.  No other block is
    read. *)
Theorem poll_of_known_model_reads_one_block (model_code : Z) (tail : list Z)
    (registers : list Register) w :
  fst (read_holding_registers client 4999 1 slave (device w)) = Some (model_code :: tail) ->
  get_model model_code = Some registers ->
  exists e first others blocks,
    plan registers = (first :: others) :: blocks
    /\ fst (_async_update_data client slave w) = Raise e
    /\ (e = TypeError \/ e = IndexError)
    /\ wire (snd (_async_update_data client slave w))
       = wire w ++ [identity_request slave;
                    group_request slave first (first :: others)].
Proof.
  intros Hread Hmodel.
  destruct (poll_of_model model_code tail registers w Hread Hmodel)
    as (e & first & others & blocks & w' & Hplan & -> & He & Hwire).
  exists e, first, others, blocks. done.
Qed.

End poll_outcomes.

Lemma poll_of_known_model_reads_one_block_witness :
  (fst (read_holding_registers (scripted_client 0x0E26 7 0) 4999 1 1 tt) = Some [0x0E26]
   /\ get_model 0x0E26 = Some _create_sh25t)
  /\ exists e, fst (_async_update_data (scripted_client 0x0E26 7 0) 1 (fresh tt)) = Raise e.
Proof.
  split; [by split|].
  destruct (poll_of_known_model_reads_one_block (scripted_client 0x0E26 7 0) 1
              0x0E26 [] _create_sh25t (fresh tt) eq_refl eq_refl)
    as (e & _ & _ & _ & _ & He & _).
  exists e. exact He.
Defined.

(** ** Setting up the sensors *)

Section sensors.

Lemma str_of_int_inj (z1 z2 : Z) : str_of_int z1 = str_of_int z2 -> z1 = z2.
Proof.
  unfold str_of_int. intros H.
  assert (Some (Z.to_int z1) = Some (Z.to_int z2)) as Hint
    by (by rewrite <- !NilEmpty.isi, H).
  injection Hint as Hint.
  by rewrite <- (DecimalZ.of_to z1), <- (DecimalZ.of_to z2), Hint.
Qed.

Lemma string_of_uint_no_underscore (d : Decimal.uint) (c : ascii) :
  In c (list_ascii_of_string (NilEmpty.string_of_uint d)) -> c <> "_"%char.
Proof.
  induction d; simpl; try done; intros [<-|H]; try discriminate; auto.
Qed.

Lemma str_of_int_no_underscore (z : Z) (c : ascii) :
  In c (list_ascii_of_string (str_of_int z)) -> c <> "_"%char.
Proof.
  unfold str_of_int. destruct (Z.to_int z) as [d|d]; simpl.
  - apply string_of_uint_no_underscore.
  - intros [<-|H]; [discriminate|]. by apply string_of_uint_no_underscore in H.
Qed.

Lemma split_at_underscore (a a' b b' : string) :
  (forall c, In c (list_ascii_of_string a) -> c <> "_"%char) ->
  (forall c, In c (list_ascii_of_string a') -> c <> "_"%char) ->
  String.append a (String "_" b) = String.append a' (String "_" b') ->
  a = a' /\ b = b'.
Proof.
  revert a'. induction a as [|c a IH]; intros a' Ha Ha' Heq.
  - destruct a' as [|c' a']; simpl in Heq.
    + by injection Heq as ->.
    + injection Heq as <- _. exfalso. apply (Ha' "_"%char); [by left | done].
  - destruct a' as [|c' a']; simpl in Heq.
    + injection Heq as -> _. exfalso. apply (Ha "_"%char); [by left | done].
    + injection Heq as -> Heq.
      destruct (IH a') as [-> ->]; [| |done|done].
      * intros x Hx. apply Ha. by right.
      * intros x Hx. apply Ha'. by right.
Qed.

(** X23.  Two sensors have the same unique id exactly when they have the same
    unit id and the same register address. *)
Theorem unique_id_identifies_unit_and_address (reg1 reg2 : Register)
    (name1 name2 : string) (slave1 slave2 : Z) :
  _unique_id (new_sensor reg1 name1 slave1) = _unique_id (new_sensor reg2 name2 slave2)
  <-> slave1 = slave2 /\ address reg1 = address reg2.
Proof.
  simpl. split; [|by intros [-> ->]].
  intros H. injection H as H.
  apply split_at_underscore in H as [H1 H2]; try apply str_of_int_no_underscore.
  split; by apply str_of_int_inj.
Qed.

Lemma NoDup_unique_ids (registers : list Register) (device_name : string) (slave : Z) :
  NoDup (address <$> registers) ->
  NoDup (map _unique_id (map (fun r => new_sensor r device_name slave) registers)).
Proof.
  induction registers as [|r registers IH]; intros Hnd; [constructor|].
  rewrite fmap_cons in Hnd. apply NoDup_cons in Hnd as [Hr Hnd].
  rewrite !map_cons. apply NoDup_cons. split; [|by apply IH].
  intros Hin. apply list_elem_of_In in Hin. rewrite map_map in Hin.
  apply in_map_iff in Hin as (r' & Hid & Hr').
  apply Hr. apply list_elem_of_fmap. exists r'.
  split; [|by apply list_elem_of_In].
  simpl in Hid. injection Hid as Hid.
  apply split_at_underscore in Hid as [_ Hid]; try apply str_of_int_no_underscore.
  symmetry. by apply str_of_int_inj.
Qed.

(** X24.  When the setup adds entities, the dictionary holds a code of the
    registry, and the entities are one sensor per register of that model,
    in the model's order, named after the device and the register, with
    pairwise distinct unique ids. *)
Theorem setup_adds_one_sensor_per_register (coordinator_data : gmap key pyval)
    (device_name : string) (slave : Z) (entities : list SungrowModbusSensor) :
  async_setup_entry coordinator_data device_name slave = Ok (Added entities) ->
  exists code model_code registers,
    coordinator_data !! inl "device_type_code"%string = Some code
    /\ int_key code = Some model_code
    /\ get_model model_code = Some registers
    /\ map register entities = registers
    /\ NoDup (map _unique_id entities)
    /\ Forall (fun e => _device_name e = device_name
                        /\ _name e = String.append device_name
                                       (String " " (name (register e)))) entities.
Proof.
  unfold async_setup_entry.
  destruct (coordinator_data !! inl "device_type_code"%string) as [code|] eqn:Hcode;
    simpl; [|done].
  destruct (truthy code); simpl; [|done].
  destruct (int_key code) as [model_code|] eqn:Hkey; [|by destruct code].
  destruct (get_model model_code) as [[|r registers]|] eqn:Hmodel;
    try (by destruct code).
  intros [= <-]. exists code, model_code, (r :: registers).
  split; [done|]. split; [done|]. split; [done|].
  split.
  { apply (f_equal (cons r)). clear. induction registers as [|r registers IH]; [done|].
    simpl. by rewrite IH. }
  split.
  - apply (NoDup_unique_ids (r :: registers)).
    destruct (registry_lists_are_well_formed_aux model_code (r :: registers) Hmodel)
      as [Hs _]. by apply lt_address_NoDup.
  - assert (forall l : list Register,
              Forall (fun e => _device_name e = device_name
                               /\ _name e = String.append device_name
                                              (String " " (name (register e))))
                     (map (fun r => new_sensor r device_name slave) l)) as Hall.
    { induction l as [|r' l IH]; simpl; constructor; [by split | exact IH]. }
    apply (Hall (r :: registers)).
Qed.

Lemma setup_adds_one_sensor_per_register_witness :
  exists entities,
    async_setup_entry sh10rt_data "Inverter" 1 = Ok (Added entities)
    /\ map register entities = _create_sh10rt
    /\ NoDup (map _unique_id entities).
Proof.
  eexists. split; [reflexivity|].
  destruct (setup_adds_one_sensor_per_register sh10rt_data "Inverter" 1 _ eq_refl)
    as (code & model_code & registers & _ & _ & _ & Hregs & Hnd & _).
  split; [reflexivity | exact Hnd].
Defined.

(** X25.  No dictionary that a poll returns lets the setup add an entity: the
    returned dictionary is empty, so the setup finds no identity code and
    returns False. *)
Theorem no_poll_result_adds_entities {D} (client : ModbusTcpClient D) (slave : Z)
    (w : world D) (snapshot : gmap key pyval) (device_name : string) (unit_id : Z) :
  fst (_async_update_data client slave w) = Ok snapshot ->
  async_setup_entry snapshot device_name unit_id = Ok ReturnedFalse.
Proof.
  intros H. by rewrite (async_update_data_returns_only_empty client slave w snapshot H).
Qed.

Lemma no_poll_result_adds_entities_witness :
  fst (_async_update_data (scripted_client 0xFFFF 7 5007) 1 (fresh tt)) = Ok ∅
  /\ async_setup_entry ∅ "Inverter" 1 = Ok ReturnedFalse.
Proof.
  assert (fst (_async_update_data (scripted_client 0xFFFF 7 5007) 1 (fresh tt)) = Ok ∅)
    as H by reflexivity.
  split; [exact H|].
  exact (no_poll_result_adds_entities (scripted_client 0xFFFF 7 5007) 1 (fresh tt) ∅
           "Inverter" 1 H).
Defined.

End sensors.

(** ** The grouping and the register spaces *)

Section register_spaces.

Implicit Types (reg prev : Register) (cur rest registers : list Register).












Lemma relabel_space_id registers :
  map (relabel_space register_type) registers = registers.
Proof. induction registers as [|[] l IH]; simpl; [done|]. by rewrite IH. Qed.


End register_spaces.



(** ** The grouping inside the poll *)

Section grouping_in_the_poll.

Implicit Types (registers : list Register) (blocks runs : list (list Register)).

(** On registers that form contiguous runs, the loop takes its action on
    exactly these runs, in order of address, until an action raises. *)
Lemma group_loop_of_runs {D} (flush : list Register -> M D unit) registers runs
    (w : world D) :
  Forall (fun run => is_run run = true) runs ->
  pairwise_apart runs = true ->
  registers ≡ₚ concat runs ->
  group_loop flush (sort_by_address registers) [] w = for_each flush (sort_runs runs) w.
Proof.
  intros Hruns Hap Hperm. rewrite group_loop_for_each.
  fold (plan registers). by rewrite (plan_of_runs registers runs).
Qed.





End grouping_in_the_poll.

(** C4, at the SH10RT list.  Its registers are the members of three
    contiguous runs, pairwise apart, of 11, 1 and 4 words.  With a group
    read that returns, the loop reads exactly these three runs, one request
    each, 16 words in all.  The poll's own loop awaits the plain method:
    it raises TypeError after the request for the first run, and the runs at
    5007 and 5010 never become blocks. *)
Lemma poll_forms_only_the_first_run :
  let client := scripted_client 0x0E03 7 0 in
  let poll := group_loop (await_read_register_group client 1)
                (sort_by_address _create_sh10rt) [] (fresh tt) in
  let returning := group_loop (_read_register_group client 1)
                     (sort_by_address _create_sh10rt) [] (fresh tt) in
  Forall (fun run => is_run run = true) sh10rt_runs
  /\ pairwise_apart sh10rt_runs = true
  /\ _create_sh10rt ≡ₚ concat sh10rt_runs
  /\ map (map address) sh10rt_runs = [[4989; 4999]; [5007]; [5010; 5011; 5012; 5013]]
  /\ total_count _create_sh10rt = 16
  /\ fst returning = Ok tt
  /\ map (fun q => (req_address q, req_count q)) (wire (snd returning))
     = [(4989, 11); (5007, 1); (5010, 4)]
  /\ fst poll = Raise TypeError
  /\ wire (snd poll)
     = [ {| req_fn := ReadInput; req_address := 4989; req_count := 11; req_slave := 1 |} ]
  /\ data (snd poll) !! inr 5007 = None
  /\ data (snd poll) !! inr 5010 = None.
Proof.
  simpl. split; [repeat constructor|]. split; [reflexivity|]. split; [reflexivity|].
  split; [reflexivity|]. vm_compute. by repeat split.
Qed.

(** ** Overlapping registers *)

Section overlapping_registers.


End overlapping_registers.



(** ** String registers *)

Section string_registers.

Implicit Types (text s lead trail : list ascii) (c : ascii) (words : list Z).

Lemma lstrip_split s :
  exists lead, s = lead ++ lstrip s /\ Forall (fun c => isspace c = true) lead.
Proof.
  induction s as [|c s (lead & IH & Hlead)]; [by exists []|]. simpl.
  destruct (isspace c) eqn:E; [|by exists []].
  exists (c :: lead). split; [simpl; by rewrite <- IH | by constructor].
Qed.

Lemma rstrip_split s :
  exists trail, s = rstrip s ++ trail /\ Forall (fun c => isspace c = true) trail.
Proof.
  unfold rstrip. destruct (lstrip_split (rev s)) as (lead & Hs & Hlead).
  exists (rev lead). split.
  - rewrite <- rev_app_distr, <- Hs. by rewrite rev_involutive.
  - apply Forall_forall. intros c Hc. rewrite Forall_forall in Hlead.
    apply Hlead. by apply list_elem_of_In, in_rev, list_elem_of_In.
Qed.

(** [strip] removes a leading and a trailing piece of whitespace, and what
    it leaves neither starts nor ends with whitespace. *)
Lemma strip_split s :
  exists lead trail,
    s = lead ++ strip s ++ trail
    /\ Forall (fun c => isspace c = true) lead
    /\ Forall (fun c => isspace c = true) trail.
Proof.
  destruct (lstrip_split s) as (lead & Hs & Hlead).
  destruct (rstrip_split (lstrip s)) as (trail & Ht & Htrail).
  exists lead, trail. unfold strip. by rewrite <- Ht.
Qed.

Lemma lstrip_blanks lead s :
  Forall (fun c => isspace c = true) lead -> lstrip (lead ++ s) = lstrip s.
Proof. induction 1 as [|c lead Hc _ IH]; simpl; [done|]. by rewrite Hc. Qed.

Lemma lstrip_clean s : (forall c, head s = Some c -> isspace c = false) -> lstrip s = s.
Proof. destruct s as [|c s]; [done|]. intros H. simpl. by rewrite (H c). Qed.

Lemma lstrip_all_blank s : Forall (fun c => isspace c = true) s -> lstrip s = [].
Proof. intros H. rewrite <- (app_nil_r s). by rewrite lstrip_blanks. Qed.

(** A text that neither starts nor ends with whitespace is what [strip]
    gives back when whitespace is put around it. *)
Lemma strip_determined lead text trail :
  Forall (fun c => isspace c = true) lead ->
  Forall (fun c => isspace c = true) trail ->
  (forall c, head text = Some c -> isspace c = false) ->
  (forall c, last text = Some c -> isspace c = false) ->
  strip (lead ++ text ++ trail) = text.
Proof.
  intros Hlead Htrail Hhead Hlast. unfold strip, rstrip.
  rewrite lstrip_blanks by done.
  assert (Forall (fun c => isspace c = true) (rev trail)) as Hrev.
  { apply Forall_forall. intros c Hc. rewrite Forall_forall in Htrail.
    apply Htrail. by apply list_elem_of_In, in_rev, list_elem_of_In. }
  destruct text as [|c text].
  - simpl. rewrite (lstrip_all_blank trail Htrail). done.
  - rewrite (lstrip_clean ((c :: text) ++ trail)) by (simpl; intros ? [= <-]; by apply Hhead).
    rewrite rev_app_distr, lstrip_blanks by done.
    rewrite lstrip_clean; [apply rev_involutive|].
    intros c0. rewrite <- (rev_involutive (c :: text)) in Hlast.
    rewrite last_rev in Hlast. apply Hlast.
Qed.

(** C7.  A string register of [n] words decodes the [n] words at its offset.
    Each word gives its high byte, then its low byte, as characters, in
    word order.  The NUL characters are left out, and the decoded text is
    what remains between a leading and a trailing piece of whitespace: it
    neither starts nor ends with whitespace, and it is the only such text.
    The offset moves by [n].  The words 0x4142, 0x0000 give "AB", and so do
    the words of "AB" between blanks, control whitespace or Latin-1
    whitespace; a blank inside the text is kept. *)
Theorem decode_string_register pre words post reg :
  data_type reg = "string"%string ->
  count reg = Z.of_nat (length words) ->
  Forall is_word words ->
  (exists lead text trail,
     decode_register (pre ++ words ++ post) (Z.of_nat (length pre)) reg
     = Some (PStr (string_of_list_ascii text), Z.of_nat (length pre) + count reg)
     /\ string_of_list_ascii text = string_of_words words
     /\ filter (fun c => c <> zero) (words ≫= word_chars) = lead ++ text ++ trail
     /\ Forall (fun c => isspace c = true) lead
     /\ Forall (fun c => isspace c = true) trail
     /\ (forall c, head text = Some c -> isspace c = false)
     /\ (forall c, last text = Some c -> isspace c = false)
     /\ (zero ∉ text)
     /\ (forall lead' text' trail',
           filter (fun c => c <> zero) (words ≫= word_chars) = lead' ++ text' ++ trail' ->
           Forall (fun c => isspace c = true) lead' ->
           Forall (fun c => isspace c = true) trail' ->
           (forall c, head text' = Some c -> isspace c = false) ->
           (forall c, last text' = Some c -> isspace c = false) ->
           text' = text))
  /\ decode_register [0x4142; 0x0000] 0 two_word_string = Some (PStr "AB", 2)
  /\ decode_register blanks_around 0 two_word_string = Some (PStr "AB", 2)
  /\ decode_register controls_around 0 two_word_string = Some (PStr "AB", 2)
  /\ decode_register latin1_blanks_around 0 two_word_string = Some (PStr "AB", 2)
  /\ decode_register blank_inside 0 two_word_string = Some (PStr "A B", 2).
Proof.
  intros Htype Hcount Hwords. split; [|by repeat split].
  set (kept := filter (fun c => c <> zero) (words ≫= word_chars)).
  destruct (strip_split kept) as (lead & trail & Hkept & Hlead & Htrail).
  exists lead, (strip kept), trail.
  split.
  { unfold decode_register. rewrite Htype. simpl.
    unfold range. rewrite Hcount, Nat2Z.id.
    pose proof (string_chars_words pre [] words post [] Hwords) as Hchars.
    simpl in Hchars. rewrite Hchars. done. }
  split; [done|]. split; [exact Hkept|]. split; [done|]. split; [done|].
  split; [apply strip_head|]. split; [apply rstrip_last|].
  split.
  { intros Hin. apply strip_elem_of in Hin.
    apply list_elem_of_filter in Hin as [Hne _]. done. }
  intros lead' text' trail' Hsplit Hlead' Htrail' Hhead Hlast.
  rewrite Hsplit. symmetry. by apply strip_determined.
Qed.

End string_registers.

Lemma decode_string_register_witness :
  (data_type two_word_string = "string"%string
   /\ count two_word_string = Z.of_nat (length blanks_around)
   /\ Forall is_word blanks_around)
  /\ decode_register ([7] ++ blanks_around ++ [7]) 1 two_word_string
     = Some (PStr "AB", 3)
  /\ filter (fun c => c <> zero) (blanks_around ≫= word_chars)
     = [" "%char] ++ ["A"%char; "B"%char] ++ [" "%char].
Proof.
  assert (Forall is_word blanks_around) as Hw
    by (repeat constructor; unfold is_word; lia).
  split; [by repeat split|].
  destruct (decode_string_register [7] blanks_around [7] two_word_string
              eq_refl eq_refl Hw)
    as ((lead & text & trail & Hdecode & Htext & _) & _).
  split; [|reflexivity].
  change (Z.of_nat (length [7])) with 1 in Hdecode.
  rewrite Hdecode, Htext. reflexivity.
Defined.
